(** * AMS-IO-Agent: the IO-ring tool and the ring layout engine

    Part I embeds [visualize_io_ring_from_json] of
    [src/tools/io_ring_generator_tool.py]: the part of the tool that turns a
    loaded intent graph into the component list handed to the visualizer.
    The collaborators it calls ([LayoutGenerator], [DeviceClassifier],
    [validate_config]) are not part of that file; they are section variables.

    Part II models the ring layout engine itself (classifier, geometry,
    position resolver, gap-fill generator, assembler) from the specification,
    since its implementation lives in [src/app/layout], which is not
    available.

    Part III embeds more of the same file: the statistics
    [generate_io_ring_schematic] reports and [list_intent_graphs], and
    proves further properties of [visualize_io_ring_from_json]. *)

From stdpp Require Import gmap strings list pretty sorting.
From Stdlib Require Import ZArith Lia Ascii.

Open Scope Z_scope.

(** ** Results of fallible computations *)

Inductive result (E A : Type) : Type :=
| Ok (a : A)
| Err (e : E).
Arguments Ok {E A} a.
Arguments Err {E A} e.

(** The error monad, with stdpp's [x ← m; k] notation. *)
Global Instance result_ret {E} : MRet (result E) := λ A a, Ok a.
Global Instance result_bind {E} : MBind (result E) := λ A B f m,
  match m with
  | Ok a => f a
  | Err e => Err e
  end.

Definition is_ok {E A} (m : result E A) : bool :=
  match m with Ok _ => true | Err _ => false end.

(** ** Strings *)

(** Python's [needle in hay] on strings. *)
Fixpoint str_contains (needle hay : string) : bool :=
  String.prefix needle hay ||
  match hay with
  | EmptyString => false
  | String _ rest => str_contains needle rest
  end.

(** * Part I: the tool, [visualize_io_ring_from_json] *)

Module Tool.

(** JSON values occurring in an intent graph: integers, strings and lists
    (an absolute position is the list [[x, y]] of integer coordinates). *)
#[warnings="-register-all"]
Inductive value : Type :=
| VNum (z : Z)
| VStr (s : string)
| VList (l : list value).

(** A JSON object with scalar or list members: a ring configuration or an
    instance descriptor. *)
Abbreviation dict := (gmap string value).

(** Python's [repr] and [str].  [repr] of a string quotes it (escapes, which
    neither add nor remove an underscore, are not modelled). *)
Fixpoint py_repr (v : value) : string :=
  match v with
  | VNum z => pretty z
  | VStr s => "'" +:+ s +:+ "'"
  | VList l =>
      "[" +:+
      (fix items (l : list value) : string :=
         match l with
         | [] => EmptyString
         | [x] => py_repr x
         | x :: l' => py_repr x +:+ ", " +:+ items l'
         end) l +:+ "]"
  end.

Definition py_str (v : value) : string :=
  match v with
  | VStr s => s
  | _ => py_repr v
  end.

(** [d.get(k) == s] for a string literal [s]. *)
Definition get_is (d : dict) (k s : string) : bool :=
  match d !! k with
  | Some (VStr t) => String.eqb t s
  | _ => false
  end.

(** [d.get(k, str())]: the default is the empty string. *)
Definition get_or_empty (d : dict) (k : string) : value :=
  default (VStr EmptyString) (d !! k).

(** The loaded JSON document: [config["instances"]], [config["ring_config"]]
    and the remaining top-level members ([library_name], [cell_name], ...). *)
Record IntentGraph : Type := {
  ig_instances : option (list dict);
  ig_ring_config : option dict;
  ig_top : dict;
}.

(** What makes the tool return an error message instead of a picture. *)
Inductive tool_error (exn : Type) : Type :=
| ValidationFailed
| KeyError (k : string)
| Raised (e : exn).
Arguments ValidationFailed {exn}.
Arguments KeyError {exn} k.
Arguments Raised {exn} e.

(** Lines 353-357: top-level [library_name] and [cell_name] are merged into
    [ring_config] unless it has them. *)
Definition merge_key (k : string) (top rc : dict) : dict :=
  match top !! k, rc !! k with
  | Some v, None => <[k := v]> rc
  | _, _ => rc
  end.

Definition merge_top_level (top rc : dict) : dict :=
  merge_key "cell_name" top (merge_key "library_name" top rc).

(** Lines 363-375: one [if k not in ring_config: ring_config[k] =
    generator.config[k]].  Reading a key that [generator.config] lacks raises
    [KeyError]. *)
Definition set_default {exn} (gen : dict) (rc : dict) (k : string)
  : result (tool_error exn) dict :=
  match rc !! k with
  | Some _ => Ok rc
  | None =>
      match gen !! k with
      | Some v => Ok (<[k := v]> rc)
      | None => Err (KeyError k)
      end
  end.

Definition apply_defaults {exn} (gen rc : dict) : result (tool_error exn) dict :=
  rc ← set_default gen rc "pad_width";
  rc ← set_default gen rc "pad_height";
  rc ← set_default gen rc "corner_size";
  rc ← set_default gen rc "pad_spacing";
  rc ← set_default gen rc "library_name";
  set_default gen rc "view_name".

(** The six keys the tool defaults, in the order of the source, and the
    six statements as a loop over them. *)
Definition default_keys : list string :=
  ["pad_width"; "pad_height"; "corner_size"; "pad_spacing";
   "library_name"; "view_name"].

Fixpoint defaults_from {exn} (gen rc : dict) (keys : list string)
  : result (tool_error exn) dict :=
  match keys with
  | [] => Ok rc
  | k :: keys' => rc ← set_default gen rc k; defaults_from gen rc keys'
  end.

(** Line 378: ["position" in instance and "_" in str(instance["position"])] *)
Definition is_relative (inst : dict) : bool :=
  match inst !! "position" with
  | Some v => str_contains "_" (py_str v)
  | None => false
  end.

(** An absolute position: a pair of integer coordinates. *)
Definition absolute_position (inst : dict) : Prop :=
  ∃ x y : Z, inst !! "position" = Some (VList [VNum x; VNum y]).

(** Lines 382-392: the loop that separates the components, with its three
    accumulators [(outer_pads, inner_pads, corners)]. *)
Definition separate_step (acc : list dict * list dict * list dict) (inst : dict)
  : list dict * list dict * list dict :=
  let '(outer_pads, inner_pads, corners) := acc in
  if get_is inst "type" "inner_pad" then (outer_pads, inner_pads ++ [inst], corners)
  else if get_is inst "type" "pad" then (outer_pads ++ [inst], inner_pads, corners)
  else if get_is inst "type" "corner" then (outer_pads, inner_pads, corners ++ [inst])
  else acc.

Definition separate (instances : list dict) : list dict * list dict * list dict :=
  foldl separate_step ([], [], []) instances.

Definition inner_pads_of (instances : list dict) : list dict :=
  List.filter (λ i, get_is i "type" "inner_pad") instances.
Definition outer_pads_of (instances : list dict) : list dict :=
  List.filter (λ i, get_is i "type" "pad") instances.
Definition corners_of (instances : list dict) : list dict :=
  List.filter (λ i, get_is i "type" "corner") instances.

(** The collaborators of the tool, none of which is defined in the file:
    [validate_config]; [generator.config] as it stands after
    [LayoutGenerator()] and [generator.set_config(ring_config)];
    [generator.convert_relative_to_absolute];
    [generator.auto_filler_generator.auto_insert_fillers_with_inner_pads];
    [DeviceClassifier.is_filler_device] and
    [DeviceClassifier.is_separator_device].  [exn] is what they raise. *)
Class Collaborators (exn : Type) : Type := {
  validate_config : IntentGraph → bool;
  generator_config : dict → dict;
  convert_relative_to_absolute : list dict → dict → result exn (list dict);
  auto_insert_fillers_with_inner_pads :
    list dict → list dict → result exn (list dict);
  is_filler_device : value → bool;
  is_separator_device : value → bool;
}.

(** An exception of a collaborator reaches the tool's outer [except]. *)
Definition lift {exn A} (m : result exn A) : result (tool_error exn) A :=
  match m with
  | Ok a => Ok a
  | Err e => Err (Raised e)
  end.

(** Lines 377-379. *)
Definition resolve_positions `{Collaborators exn} (instances : list dict) (rc : dict)
  : result (tool_error exn) (list dict) :=
  if existsb is_relative instances
  then lift (convert_relative_to_absolute instances rc)
  else Ok instances.

(** Lines 396-397, 405 and 407: the tests on a component. *)
Definition is_filler `{Collaborators exn} (comp : dict) : bool :=
  get_is comp "type" "filler" || is_filler_device (get_or_empty comp "device").
Definition is_separator `{Collaborators exn} (comp : dict) : bool :=
  get_is comp "type" "separator" || is_separator_device (get_or_empty comp "device").

(** A filler or separator already present in the intent graph. *)
Definition existing `{Collaborators exn} (comp : dict) : bool :=
  is_filler comp || is_separator comp.

(** Lines 404-408: the loop appending the fillers and separators found in
    the input ([if ... elif ...], one append per component at most). *)
Definition append_existing `{Collaborators exn} (acc : list dict) (comp : dict)
  : list dict :=
  if is_filler comp then acc ++ [comp]
  else if is_separator comp then acc ++ [comp]
  else acc.

(** Python's truth value of a list. *)
Definition nonempty {A} (l : list A) : bool :=
  match l with [] => false | _ => true end.

(** Lines 381-415, the list [all_components_with_fillers]. *)
Definition assemble_components `{Collaborators exn} (instances : list dict)
  : result (tool_error exn) (list dict) :=
  let '(outer_pads, inner_pads, corners) := separate instances in
  let all_instances := instances in
  let existing_fillers := List.filter is_filler all_instances in
  let existing_separators := List.filter is_separator all_instances in
  all_components_with_fillers ←
    (if nonempty existing_fillers || nonempty existing_separators then
       let validation_components := outer_pads ++ corners in
       Ok (foldl append_existing validation_components all_instances)
     else
       let validation_components := outer_pads ++ corners in
       lift (auto_insert_fillers_with_inner_pads validation_components inner_pads));
  Ok (all_components_with_fillers ++ inner_pads).

(** Lines 349-379: validation, merging, defaults and position resolution. *)
Definition prepare `{Collaborators exn} (config : IntentGraph)
  : result (tool_error exn) (dict * list dict) :=
  if negb (validate_config config) then Err ValidationFailed else
  let instances := default [] (ig_instances config) in
  let ring_config := default ∅ (ig_ring_config config) in
  let ring_config := merge_top_level (ig_top config) ring_config in
  ring_config ← apply_defaults (generator_config ring_config) ring_config;
  instances ← resolve_positions instances ring_config;
  Ok (ring_config, instances).

(** Lines 345-415: the components passed to
    [visualize_layout_from_components]. *)
Definition visualize_components `{Collaborators exn} (config : IntentGraph)
  : result (tool_error exn) (list dict) :=
  p ← prepare config;
  assemble_components p.2.

(** What the specification promises of the position resolver (section 4.3):
    inner pads keep the coordinates the caller supplied. *)
Definition resolver_keeps_inner_pads `{Collaborators exn} : Prop :=
  ∀ instances rc resolved,
    convert_relative_to_absolute instances rc = Ok resolved →
    inner_pads_of resolved = inner_pads_of instances.

(** The instance list of an intent graph, [config.get("instances", [])]. *)
Definition instances_of (config : IntentGraph) : list dict :=
  default [] (ig_instances config).

End Tool.

(** * Part II: the ring layout engine *)

Module Layout.

(** ** Data model *)

Inductive Category : Type :=
| CatPad | CatInnerPad | CatCorner | CatFiller | CatSeparator | CatUnknown.

Inductive Kind : Type := Pad | InnerPad | Corner | Filler | Separator.

Inductive Side : Type := BottomSide | RightSide | TopSide | LeftSide.

Global Instance Category_eq_dec : EqDecision Category.
Proof. solve_decision. Defined.
Global Instance Kind_eq_dec : EqDecision Kind.
Proof. solve_decision. Defined.
Global Instance Side_eq_dec : EqDecision Side.
Proof. solve_decision. Defined.


Definition next_side (s : Side) : Side :=
  match s with
  | BottomSide => RightSide
  | RightSide => TopSide
  | TopSide => LeftSide
  | LeftSide => BottomSide
  end.

Definition side_name (s : Side) : string :=
  match s with
  | BottomSide => "bottom"
  | RightSide => "right"
  | TopSide => "top"
  | LeftSide => "left"
  end.

(** Modelled from the spec: the [RingConfig] of the data model (section 3),
    the ring-level parameters of [LayoutGenerator], which is not available;
    all lengths are integers of one unit system. *)
Record RingConfig : Type := {
  width : Z;
  height : Z;
  pad_width : Z;
  pad_height : Z;
  corner_size : Z;
  pad_spacing : Z;
  library_name : string;
  cell_name : string;
  view_name : string;
}.

(** A declared position: an absolute perimeter offset, or an offset from
    another named instance. *)
Inductive Position : Type :=
| Absolute (offset : Z)
| Relative (ref : string) (delta : Z).

(** Modelled from the spec: the [Instance] of the data model (section 3), the
    descriptor type of the layout engine in [src/app/layout], which is not
    available.  [kind] is the explicit tag, when the descriptor has one;
    [side] is not meaningful for inner pads; [group] is the caller-specified
    grouping attribute of section 4.4. *)
Record Instance : Type := {
  name : string;
  device : string;
  kind : option Kind;
  side : Side;
  position : Position;
  resolved_position : option Z;
  group : string;
}.

(** Modelled from the spec: a record of the output (section 6): name, kind,
    device, side, absolute position along the side and width, the extent
    along the side. *)
Record Placed : Type := {
  p_name : string;
  p_kind : Kind;
  p_device : string;
  p_side : Side;
  p_position : Z;
  p_width : Z;
  p_group : string;
}.


(** Modelled from the spec: the [FillerCatalog] of the data model (section
    3), the allowed filler widths and the minimum separator width of the
    filler generator, which is not available. *)
Record FillerCatalog : Type := {
  filler_widths : list Z;
  min_separator_width : Z;
}.

(** Modelled from the spec: the error taxonomy of section 7, the exceptions
    of the layout engine, which is not available. *)
Inductive LayoutError : Type :=
| UnresolvedReferenceError (instance reference : string)
| CyclicReferenceError (instances : list string)
| OverlapError (first second : string)
| LayoutOverflowError (previous next : string)
| SeparatorTooSmallError (s : Side) (gap : Z)
| UnfillableGapError (s : Side) (lo hi : Z)
| ConfigurationError.

(** ** Device classifier (section 4.1) *)

Definition lower_ascii (c : Ascii.ascii) : Ascii.ascii :=
  let n := Ascii.nat_of_ascii c in
  if ((65 <=? n) && (n <=? 90))%nat then Ascii.ascii_of_nat (n + 32) else c.

Fixpoint lower (s : string) : string :=
  match s with
  | EmptyString => EmptyString
  | String c rest => String (lower_ascii c) (lower rest)
  end.

(** Modelled from the spec: [classify] of the device classifier
    ([DeviceClassifier], not available): filler patterns first, then
    separator patterns, case-insensitively; no match is [unknown]. *)
Definition classify (device_label : string) : Category :=
  let l := lower device_label in
  if str_contains "fill" l then CatFiller
  else if str_contains "sep" l || str_contains "break" l then CatSeparator
  else CatUnknown.


(** ** Ring geometry (section 4.2) *)

Definition edge_length (cfg : RingConfig) (s : Side) : Z :=
  match s with
  | BottomSide | TopSide => width cfg
  | RightSide | LeftSide => height cfg
  end.

Definition usable_length (cfg : RingConfig) (s : Side) : Z :=
  edge_length cfg s - 2 * corner_size cfg.


(** Modelled from the spec: the corner the geometry model (not available)
    generates at the turn into side [s]; it consumes [corner_size] of
    perimeter just before offset 0 of [s]. *)
Definition leading_corner (cfg : RingConfig) (s : Side) : Placed :=
  {| p_name := "corner_" +:+ side_name s;
     p_kind := Corner;
     p_device := "corner";
     p_side := s;
     p_position := - corner_size cfg;
     p_width := corner_size cfg;
     p_group := EmptyString |}.

(** The corner closing side [s] is the leading corner of the next side, seen
    from [s]: it starts where the usable length of [s] ends. *)
Definition trailing_corner (cfg : RingConfig) (s : Side) : Placed :=
  let c := leading_corner cfg (next_side s) in
  {| p_name := p_name c;
     p_kind := p_kind c;
     p_device := p_device c;
     p_side := p_side c;
     p_position := usable_length cfg s;
     p_width := p_width c;
     p_group := p_group c |}.

Definition p_end (p : Placed) : Z := p_position p + p_width p.

(** ** Position resolver (section 4.3) *)

Definition has_name (n : string) (i : Instance) : bool := String.eqb (name i) n.

(** Modelled from the spec: building the reference graph of the resolver
    (not available); the first relative position that names no instance of
    the graph stops the run. *)
Fixpoint check_references (graph todo : list Instance)
  : result LayoutError unit :=
  match todo with
  | [] => Ok ()
  | i :: todo' =>
      match position i with
      | Relative r _ =>
          if existsb (has_name r) graph then check_references graph todo'
          else Err (UnresolvedReferenceError (name i) r)
      | Absolute _ => check_references graph todo'
      end
  end.

(** One visit of an instance: an absolute position resolves at once, a
    relative one as soon as its reference is resolved. *)
Definition resolve_step (known : gmap string Z) (i : Instance) : gmap string Z :=
  match position i with
  | Absolute p => <[name i := p]> known
  | Relative r d =>
      match known !! r with
      | Some base => <[name i := base + d]> known
      | None => known
      end
  end.

Definition resolve_pass (l : list Instance) (known : gmap string Z)
  : gmap string Z :=
  foldl resolve_step known l.

(** Modelled from the spec: the iterative fixed point of the resolver (not
    available), as many passes as there are instances. *)
Fixpoint resolve_passes (n : nat) (l : list Instance) (known : gmap string Z)
  : gmap string Z :=
  match n with
  | O => known
  | S n' => resolve_passes n' l (resolve_pass l known)
  end.

Definition unresolved (known : gmap string Z) (i : Instance) : bool :=
  match known !! name i with
  | Some _ => false
  | None => true
  end.

Definition with_resolved (known : gmap string Z) (i : Instance) : Instance :=
  {| name := name i;
     device := device i;
     kind := kind i;
     side := side i;
     position := position i;
     resolved_position := known !! name i;
     group := group i |}.

(** Modelled from the spec: [resolve] of the position resolver
    ([convert_relative_to_absolute] of [LayoutGenerator], not available), by
    iteration to a fixed point; what is left unresolved sits on a cycle. *)
Definition resolve (l : list Instance) : result LayoutError (list Instance) :=
  _ ← check_references l l;
  let known := resolve_passes (length l) l ∅ in
  match List.filter (unresolved known) l with
  | [] => Ok (map (with_resolved known) l)
  | stuck => Err (CyclicReferenceError (map name stuck))
  end.






(** ** Gap-fill generator (section 4.4) *)

Definition sumZ (l : list Z) : Z := foldr Z.add 0 l.

Definition total_width (l : list Placed) : Z := sumZ (map p_width l).

(** The largest catalog width that fits in [r]. *)
Definition largest_fitting (ws : list Z) (r : Z) : option Z :=
  foldl (λ best w,
           if (0 <? w) && (w <=? r) then
             match best with
             | Some b => Some (Z.max b w)
             | None => Some w
             end
           else best) None ws.

(** Modelled from the spec: the greedy placement of step 4 of the per-gap
    algorithm (the filler generator is not available): the largest width
    that fits, again and again. *)
Fixpoint greedy_fill (fuel : nat) (ws : list Z) (r : Z) : option (list Z) :=
  if r =? 0 then Some [] else
  match fuel with
  | O => None
  | S fuel' =>
      match largest_fitting ws r with
      | Some w => cons w <$> greedy_fill fuel' ws (r - w)
      | None => None
      end
  end.

(** Modelled from the spec: the fallback of step 4 (the filler generator is
    not available), dynamic programming over the remainder values [0..r];
    [table !! v] is a fewest-cells choice of widths summing to [v]. *)
Definition fewer (a b : option (list Z)) : option (list Z) :=
  match a, b with
  | Some x, Some y => if (length y <? length x)%nat then b else a
  | None, _ => b
  | _, None => a
  end.

Definition dp_step (table : list (option (list Z))) (v : nat)
    (best : option (list Z)) (w : Z) : option (list Z) :=
  if (0 <? w) && (w <=? Z.of_nat v) then
    match table !! (v - Z.to_nat w)%nat with
    | Some (Some l) => fewer best (Some (w :: l))
    | _ => best
    end
  else best.

Definition dp_entry (ws : list Z) (table : list (option (list Z))) (v : nat)
  : option (list Z) :=
  foldl (dp_step table v) None ws.

Fixpoint dp_table (ws : list Z) (n : nat) : list (option (list Z)) :=
  match n with
  | O => [Some []]
  | S n' => let t := dp_table ws n' in t ++ [dp_entry ws t n]
  end.

Definition dp_fill (ws : list Z) (r : Z) : option (list Z) :=
  mjoin (dp_table ws (Z.to_nat r) !! Z.to_nat r).

(** Modelled from the spec: the exact-fill selection of step 4 (the filler
    generator is not available) for a non-negative length: greedy first, the
    search second. *)
Definition fill_exact (ws : list Z) (r : Z) : option (list Z) :=
  if r <? 0 then None else
  match greedy_fill (Z.to_nat r) ws r with
  | Some l => Some l
  | None => dp_fill ws r
  end.

(** A choice of cells the generator may make: catalog widths, positive. *)
Definition valid_fill (ws : list Z) (l : list Z) : Prop :=
  Forall (λ w, w ∈ ws ∧ 0 < w) l.

(** Modelled from the spec: step 3 of the per-gap algorithm (the filler
    generator is not available); a separator is mandated between two pads of
    different groups. *)
Definition separator_required (prev next : Placed) : bool :=
  bool_decide (p_kind prev = Pad) && bool_decide (p_kind next = Pad) &&
  negb (String.eqb (p_group prev) (p_group next)).

(** The name of a generated cell: side, gap index, sequence index. *)
Definition cell_name_of (k : Kind) (s : Side) (gap_index seq : nat) : string :=
  (match k with Separator => "separator_" | _ => "filler_" end)
  +:+ side_name s +:+ "_" +:+ pretty gap_index +:+ "_" +:+ pretty seq.

(** The cells of one gap laid out from [start] on, in tiling order. *)
Fixpoint lay_out (s : Side) (gap_index seq : nat) (start : Z)
    (cells : list (Kind * Z)) : list Placed :=
  match cells with
  | [] => []
  | (k, w) :: cells' =>
      {| p_name := cell_name_of k s gap_index seq;
         p_kind := k;
         p_device := match k with Separator => "separator" | _ => "filler" end;
         p_side := s;
         p_position := start;
         p_width := w;
         p_group := EmptyString |}
      :: lay_out s gap_index (S seq) (start + w) cells'
  end.

(** Modelled from the spec: the per-gap algorithm of the gap-fill generator
    ([auto_filler_generator] of [LayoutGenerator], not available), steps 1
    to 5 in their order.  The separator, when mandated, is the first cell of
    the gap. *)
Definition fill_gap (cat : FillerCatalog) (s : Side) (gap_index : nat)
    (prev next : Placed) : result LayoutError (list Placed) :=
  let lo := p_end prev in
  let hi := p_position next in
  let gap := hi - lo in
  if gap =? 0 then Ok []
  else if gap <? 0 then Err (LayoutOverflowError (p_name prev) (p_name next))
  else
    separators ←
      (if separator_required prev next then
         if gap <? min_separator_width cat
         then Err (SeparatorTooSmallError s gap)
         else Ok [(Separator, min_separator_width cat)]
       else Ok []);
    let remaining := gap - sumZ (map snd separators) in
    match fill_exact (filler_widths cat) remaining with
    | Some ws => Ok (lay_out s gap_index 0 lo (separators ++ map (pair Filler) ws))
    | None => Err (UnfillableGapError s lo hi)
    end.

(** The gaps of a side, in perimeter order. *)
Fixpoint fill_row (cat : FillerCatalog) (s : Side) (gap_index : nat)
    (prev : Placed) (rest : list Placed) : result LayoutError (list Placed) :=
  match rest with
  | [] => Ok [prev]
  | next :: rest' =>
      cells ← fill_gap cat s gap_index prev next;
      tail ← fill_row cat s (S gap_index) next rest';
      Ok (prev :: cells ++ tail)
  end.

(** Modelled from the spec: the gap-fill generator on one side, given the
    ordered placed instances of the side with its two bounding corners. *)
Definition fill_side (cat : FillerCatalog) (s : Side) (row : list Placed)
  : result LayoutError (list Placed) :=
  match row with
  | [] => Ok []
  | first :: rest => fill_row cat s 0 first rest
  end.

(** ** Layout assembler (section 4.5) and the layout run *)











(** Every cell starts where the one before it ends. *)
Fixpoint contiguous (start : Z) (l : list Placed) : Prop :=
  match l with
  | [] => True
  | p :: l' => p_position p = start ∧ contiguous (p_end p) l'
  end.

(** Widths drawn, with repetition, from a catalog. *)
Definition drawn_from (ws : list Z) (l : list Z) : Prop :=
  Forall (λ w, w ∈ ws) l.

Definition expressible (ws : list Z) (r : Z) : Prop :=
  ∃ l, drawn_from ws l ∧ sumZ l = r.

Definition catalog_wf (cat : FillerCatalog) : Prop :=
  Forall (λ w, 0 < w) (filler_widths cat).

(** What is left of a gap for fillers once the separator is reserved. *)
Definition remaining_length (cat : FillerCatalog) (prev next : Placed) : Z :=
  p_position next - p_end prev
  - (if separator_required prev next then min_separator_width cat else 0).


Definition is_corner (p : Placed) : bool := bool_decide (p_kind p = Corner).
Definition is_filler_cell (p : Placed) : bool := bool_decide (p_kind p = Filler).




(** An entry of the search table is right for the remainder [v]. *)
Definition entry_ok (ws : list Z) (v : nat) (e : option (list Z)) : Prop :=
  match e with
  | Some l => valid_fill ws l ∧ sumZ l = Z.of_nat v
  | None => ∀ l, valid_fill ws l → sumZ l ≠ Z.of_nat v
  end.

(** The reference graph: [a] is declared relative to [b]. *)
Definition ref_edge (l : list Instance) (a b : string) : Prop :=
  ∃ i d, i ∈ l ∧ name i = a ∧ position i = Relative b d.

(** [a] relative to ... relative to [z], through the names [via]. *)
Fixpoint chain (l : list Instance) (a : string) (via : list string) (z : string)
  : Prop :=
  match via with
  | [] => ref_edge l a z
  | b :: via' => ref_edge l a b ∧ chain l b via' z
  end.

Definition cyclic (l : list Instance) : Prop := ∃ a via, chain l a via a.

(** Some relative position names no instance. *)
Definition dangling (l : list Instance) : Prop :=
  ∃ i r d, i ∈ l ∧ position i = Relative r d ∧ r ∉ map name l.

(** Every instance named in [names] is relative to a name in [names]. *)
Definition blocked (names : list string) (l : list Instance) : Prop :=
  ∀ i, i ∈ l → name i ∈ names →
    ∃ r d, position i = Relative r d ∧ r ∈ names.

Definition none_known (names : list string) (known : gmap string Z) : Prop :=
  ∀ n, n ∈ names → known !! n = None.

Definition all_absolute (l : list Instance) : Prop :=
  Forall (λ i, ∃ p, position i = Absolute p) l.

(** The position an instance declares, through [k] references. *)
Inductive declared (l : list Instance) : string → nat → Z → Prop :=
| declared_absolute i p :
    i ∈ l → position i = Absolute p → declared l (name i) 0 p
| declared_relative i r d k b :
    i ∈ l → position i = Relative r d → declared l r k b →
    declared l (name i) (S k) (b + d).

Definition consistent (l : list Instance) (known : gmap string Z) : Prop :=
  ∀ n v, known !! n = Some v → ∃ k, declared l n k v.

(** Consecutive names of [c] are references. *)
Fixpoint path (l : list Instance) (c : list string) : Prop :=
  match c with
  | a :: ((b :: _) as c') => ref_edge l a b ∧ path l c'
  | _ => True
  end.

End Layout.

(** * Concrete intent graphs, rings and catalogs *)

Module Examples.
Import Tool.

Definition descriptor (n t d : string) (pos : value) : dict :=
  list_to_map
    [("name", VStr n); ("type", VStr t); ("device", VStr d); ("position", pos)].

Definition pad_a : dict := descriptor "VDD" "pad" "PVDD1DGZ" (VList [VNum 110; VNum 0]).
Definition pad_b : dict := descriptor "D0" "pad" "PDDW16SDGZ" (VList [VNum 130; VNum 0]).
Definition corner_a : dict := descriptor "CORNER_BL" "corner" "PCORNER" (VList [VNum 0; VNum 0]).
Definition filler_a : dict := descriptor "F0" "filler" "PFILLER10" (VList [VNum 150; VNum 0]).
Definition inner_a : dict := descriptor "VSS_CORE" "inner_pad" "PVSS1DGZ" (VList [VNum 110; VNum 120]).
Definition inner_b : dict := descriptor "VDD_CORE" "inner_pad" "PVDD1DGZ" (VList [VNum 130; VNum 120]).

(** A default table standing for [LayoutGenerator().config]. *)
Definition default_table : dict :=
  list_to_map
    [("pad_width", VNum 20); ("pad_height", VNum 110); ("corner_size", VNum 110);
     ("pad_spacing", VNum 60); ("library_name", VStr "iolib");
     ("view_name", VStr "layout")].

(** Collaborators to run the tool with: the generator's table is the defaults
    updated with the ring configuration, the classifier is the one of Part
    II, the resolver and the filler stage hand their input back. *)
Definition example_collaborators : Collaborators unit := {|
  validate_config := λ _, true;
  generator_config := λ rc, rc ∪ default_table;
  convert_relative_to_absolute := λ instances _, Ok instances;
  auto_insert_fillers_with_inner_pads := λ components _, Ok components;
  is_filler_device := λ v,
    match v with
    | VStr s => bool_decide (Layout.classify s = Layout.CatFiller)
    | _ => false
    end;
  is_separator_device := λ v,
    match v with
    | VStr s => bool_decide (Layout.classify s = Layout.CatSeparator)
    | _ => false
    end;
|}.

Definition graph_with_filler : IntentGraph := {|
  ig_instances := Some [inner_a; pad_a; filler_a; corner_a; inner_b; pad_b];
  ig_ring_config := Some (list_to_map [("width", VNum 400); ("pad_width", VNum 25)]);
  ig_top := list_to_map [("library_name", VStr "mylib")];
|}.

Definition graph_without_filler : IntentGraph := {|
  ig_instances := Some [inner_a; pad_a; corner_a; inner_b; pad_b];
  ig_ring_config := None;
  ig_top := ∅;
|}.

(** The ring configuration the tool ends up with for [graph_with_filler]. *)
Definition prepared_ring_config : dict :=
  list_to_map
    [("width", VNum 400); ("pad_width", VNum 25); ("library_name", VStr "mylib");
     ("pad_height", VNum 110); ("corner_size", VNum 110);
     ("pad_spacing", VNum 60); ("view_name", VStr "layout")].

(** ** The ring of the gap-fill examples: sides of usable length 100 *)

Import Layout.

Definition ring : RingConfig := {|
  width := 120;
  height := 120;
  pad_width := 30;
  pad_height := 50;
  corner_size := 10;
  pad_spacing := 0;
  library_name := "iolib";
  cell_name := "ring";
  view_name := "layout";
|}.

Definition catalog_20_10_5 : FillerCatalog :=
  {| filler_widths := [20; 10; 5]; min_separator_width := 5 |}.

Definition catalog_30_7 : FillerCatalog :=
  {| filler_widths := [30; 7]; min_separator_width := 5 |}.

Definition pad (n : string) (pos : Position) : Instance := {|
  name := n;
  device := "PDDW16SDGZ";
  kind := Some Pad;
  side := BottomSide;
  position := pos;
  resolved_position := None;
  group := "core";
|}.


Definition placed_pad (n : string) (pos : Z) : Placed := {|
  p_name := n;
  p_kind := Pad;
  p_device := "PDDW16SDGZ";
  p_side := BottomSide;
  p_position := pos;
  p_width := 30;
  p_group := "core";
|}.

Definition filler_cell (n : string) (pos w : Z) : Placed := {|
  p_name := n;
  p_kind := Filler;
  p_device := "filler";
  p_side := BottomSide;
  p_position := pos;
  p_width := w;
  p_group := EmptyString;
|}.

Definition bottom_row : list Placed :=
  [leading_corner ring BottomSide; placed_pad "P1" 0; placed_pad "P2" 70;
   trailing_corner ring BottomSide].

Definition bottom_row_filled : list Placed :=
  [leading_corner ring BottomSide; placed_pad "P1" 0;
   filler_cell "filler_bottom_1_0" 30 20; filler_cell "filler_bottom_1_1" 50 20;
   placed_pad "P2" 70; trailing_corner ring BottomSide].

(** Two pads placed closer than their width allows, and two abutting pads. *)
Definition overlapping_pad : Placed := placed_pad "P2" 20.
Definition abutting_pad : Placed := placed_pad "P2" 30.


(** A cycle, and a cycle next to a reference to nothing. *)
Definition cycle_AB : list Instance :=
  [pad "A" (Relative "B" 10); pad "B" (Relative "A" 10)].

Definition cycle_and_dangling : list Instance :=
  [pad "A" (Relative "B" 10); pad "B" (Relative "A" 10);
   pad "C" (Relative "Z" 10)].

(** A reference to nothing, and no cycle. *)
Definition dangling_only : list Instance :=
  [pad "P1" (Absolute 0); pad "C" (Relative "Z" 10)].

End Examples.

(** * Part III: the rest of the tool *)

(** ** More of [visualize_io_ring_from_json] *)

Module Visualize.
Import Tool.

(** Whether a string anywhere inside a JSON value holds an underscore. *)
Fixpoint mentions_underscore (v : value) : bool :=
  match v with
  | VNum _ => false
  | VStr s => str_contains "_" s
  | VList l =>
      (fix any (l : list value) : bool :=
         match l with
         | [] => false
         | x :: l' => mentions_underscore x || any l'
         end) l
  end.

(** The items of a printed list, as [py_repr] joins them. *)
Fixpoint repr_items (l : list value) : string :=
  match l with
  | [] => EmptyString
  | [x] => py_repr x
  | x :: l' => py_repr x +:+ ", " +:+ repr_items l'
  end.

(** A key that neither the ring configuration nor the generator's table
    defines: the statement that defaults it raises [KeyError]. *)
Definition missing (gen rc : dict) (k : string) : bool :=
  bool_decide (rc !! k = None) && bool_decide (gen !! k = None).

(** The first such key among the six, in the order of the statements. *)
Definition first_missing (gen rc : dict) : option string :=
  List.find (missing gen rc) default_keys.

(** The ring configuration the tool works with after lines 353-375, member
    by member: the caller's own value, else the top-level [library_name] or
    [cell_name], else the generator's value for a defaulted key. *)
Definition configured (gen top rc : dict) (j : string) : option value :=
  match rc !! j with
  | Some v => Some v
  | None =>
      match (if bool_decide (j = "library_name" ∨ j = "cell_name")
             then top !! j else None) with
      | Some v => Some v
      | None => if bool_decide (j ∈ default_keys) then gen !! j else None
      end
  end.

(** In how many of the lists of lines 382-408 a component is put: one for
    its type ([pad], [corner] or [inner_pad]), one more when it counts as a
    filler or separator. *)
Definition copies `{Collaborators exn} (comp : dict) : nat :=
  (Nat.b2n (get_is comp "type" "pad") + Nat.b2n (get_is comp "type" "corner")
   + Nat.b2n (existing comp) + Nat.b2n (get_is comp "type" "inner_pad"))%nat.



End Visualize.

(** ** The statistics of [generate_io_ring_schematic] (lines 102-116) *)

Module Schematic.
Import Tool.

(** The line feed of the f-strings. *)
Definition nl : string := String (Ascii.ascii_of_nat 10) EmptyString.

(** An element of [config_list]: a JSON object, or anything else (which
    [isinstance(item, dict)] rejects). *)
Inductive item : Type :=
| Object (d : dict)
| Other (v : value).

(** What [set.add], [sorted] and [str.join] raise. *)
Inductive py_error : Type := TypeError.

(** [isinstance(item, dict) and 'device' in item] *)
Definition has_device (it : item) : bool :=
  match it with
  | Object d => bool_decide (is_Some (d !! "device"))
  | Other _ => false
  end.

(** Python's [==] on hashable JSON values. *)
Definition value_eqb (a b : value) : bool :=
  match a, b with
  | VNum x, VNum y => Z.eqb x y
  | VStr s, VStr t => String.eqb s t
  | _, _ => false
  end.

(** [device_types.add(v)]: a list is unhashable.  The set is kept as a list
    without duplicates; the order of a Python set is not specified, and the
    only reader, [sorted], does not depend on it. *)
Definition set_add (s : list value) (v : value) : result py_error (list value) :=
  match v with
  | VList _ => Err TypeError
  | _ => Ok (if existsb (value_eqb v) s then s else s ++ [v])
  end.

Definition as_str (v : value) : option string :=
  match v with VStr s => Some s | _ => None end.
Definition as_num (v : value) : option Z :=
  match v with VNum z => Some z | _ => None end.

(** [sorted(s)]: strings among themselves and numbers among themselves are
    ordered; comparing a string with a number raises [TypeError]; nothing is
    compared when there are fewer than two elements. *)
Definition py_sorted (l : list value) : result py_error (list value) :=
  match l with
  | [] | [_] => Ok l
  | _ =>
      match mapM as_str l, mapM as_num l with
      | Some ss, _ => Ok (map VStr (merge_sort String.le ss))
      | None, Some ns => Ok (map VNum (merge_sort Z.le ns))
      | None, None => Err TypeError
      end
  end.

Fixpoint join (sep : string) (l : list string) : string :=
  match l with
  | [] => EmptyString
  | [x] => x
  | x :: l' => x +:+ sep +:+ join sep l'
  end.

(** [sep.join(l)]: every element must be a string. *)
Definition py_join (sep : string) (l : list value) : result py_error string :=
  match mapM as_str l with
  | Some ss => Ok (join sep ss)
  | None => Err TypeError
  end.

(** Lines 105-108: the loop filling [device_types]. *)
Fixpoint add_devices (device_types : list value) (device_instances : list item)
  : result py_error (list value) :=
  match device_instances with
  | [] => Ok device_types
  | it :: rest =>
      device_types ←
        match it with
        | Object d =>
            match d !! "device" with
            | Some v => set_add device_types v
            | None => Ok device_types
            end
        | Other _ => Ok device_types
        end;
      add_devices device_types rest
  end.

(** Lines 102-116: the message returned after the schematic is written, or
    the exception that sends the tool to its [except] branch (line 118). *)
Definition success_message (output_path : string) (config_list : list item)
  : result py_error string :=
  let device_instances := List.filter has_device config_list in
  let device_count := length device_instances in
  device_types ← add_devices [] device_instances;
  let result :=
    "✅ Successfully generated schematic file: " +:+ output_path +:+ nl in
  let result := result +:+ "📊 Statistics:" +:+ nl in
  let result :=
    result +:+ "  - Device instance count: " +:+ pretty device_count +:+ nl in
  if nonempty device_types then
    names ← py_sorted device_types;
    joined ← py_join ", " names;
    Ok (result +:+ "  - Device types used: " +:+ joined +:+ nl)
  else Ok result.

(** The message for [count] device instances of the given device names. *)
Definition report (output_path : string) (count : nat) (names : list string)
  : string :=
  let result :=
    "✅ Successfully generated schematic file: " +:+ output_path +:+ nl in
  let result := result +:+ "📊 Statistics:" +:+ nl in
  let result :=
    result +:+ "  - Device instance count: " +:+ pretty count +:+ nl in
  match names with
  | [] => result
  | _ => result +:+ "  - Device types used: " +:+ join ", " names +:+ nl
  end.

(** [s] is the device of some object of the list. *)
Definition device_in (config_list : list item) (s : string) : Prop :=
  ∃ d, Object d ∈ config_list ∧ d !! "device" = Some (VStr s).

(** Every device of the list is a string. *)
Definition devices_are_strings (config_list : list item) : Prop :=
  ∀ d v, Object d ∈ config_list → d !! "device" = Some v → ∃ s, v = VStr s.

End Schematic.

(** ** [list_intent_graphs] (lines 213-259) *)

Module Listing.
Import Tool.

(** What [json.load] returns.  A float stands by the text Python prints for
    it; the members of an object are in insertion order, one per key. *)
#[warnings="-register-all"]
Inductive json : Type :=
| JNull
| JBool (b : bool)
| JInt (z : Z)
| JFloat (text : string)
| JStr (s : string)
| JList (l : list json)
| JDict (members : list (string * json)).

(** What the operations of the loop raise. *)
Inductive exn : Type := TypeError | KeyError | AttributeError.

(** The file system as the tool reads it: [Path(p).exists()], the names
    [dir_path.glob("*.json")] yields, and the value [json.load] returns for
    a file of a directory ([None] when [open] or [json.load] raises). *)
Record Files : Type := {
  path_exists : string → bool;
  glob_json : string → list string;
  load : string → string → option json;
}.

Record Entry : Type := {
  e_file : string;
  e_size : string;
  e_pads : nat;
}.

Definition member (k : string) (members : list (string * json)) : option json :=
  snd <$> List.find (λ kv, String.eqb kv.1 k) members.

(** [k in v] for a string [k]: a key of a dict, an element of a list, a
    substring of a string; anything else is not iterable. *)
Definition py_in (k : string) (v : json) : result exn bool :=
  match v with
  | JDict members => Ok (bool_decide (is_Some (member k members)))
  | JList l =>
      Ok (existsb (λ x, match x with JStr s => String.eqb s k | _ => false end) l)
  | JStr s => Ok (str_contains k s)
  | _ => Err TypeError
  end.

(** [v[k]] for a string [k]. *)
Definition subscript (v : json) (k : string) : result exn json :=
  match v with
  | JDict members =>
      match member k members with
      | Some x => Ok x
      | None => Err KeyError
      end
  | _ => Err TypeError
  end.

(** [v.get(k, d)]: only a dict has [get]. *)
Definition get_or (v : json) (k : string) (d : json) : result exn json :=
  match v with
  | JDict members => Ok (default d (member k members))
  | _ => Err AttributeError
  end.

(** The characters of a string: the bytes of its UTF-8 text that start
    one. *)
Definition starts_character (c : Ascii.ascii) : bool :=
  let n := Ascii.nat_of_ascii c in negb ((128 <=? n)%nat && (n <? 192)%nat).

Fixpoint characters (s : string) : nat :=
  match s with
  | EmptyString => 0
  | String c rest => ((if starts_character c then 1 else 0) + characters rest)%nat
  end.

(** [len(v)]: a list, a dict and a string have a length. *)
Definition py_len (v : json) : result exn nat :=
  match v with
  | JList l => Ok (length l)
  | JDict members => Ok (length members)
  | JStr s => Ok (characters s)
  | _ => Err TypeError
  end.

(** Python's [repr] and [str] of a loaded value, as an f-string prints it
    (the escapes [repr] puts into a quoted string are not modelled). *)
Fixpoint json_repr (v : json) : string :=
  match v with
  | JNull => "None"
  | JBool true => "True"
  | JBool false => "False"
  | JInt z => pretty z
  | JFloat text => text
  | JStr s => "'" +:+ s +:+ "'"
  | JList l =>
      "[" +:+
      (fix items (l : list json) : string :=
         match l with
         | [] => EmptyString
         | [x] => json_repr x
         | x :: l' => json_repr x +:+ ", " +:+ items l'
         end) l +:+ "]"
  | JDict members =>
      "{" +:+
      (fix items (members : list (string * json)) : string :=
         match members with
         | [] => EmptyString
         | [(k, x)] => "'" +:+ k +:+ "': " +:+ json_repr x
         | (k, x) :: members' =>
             "'" +:+ k +:+ "': " +:+ json_repr x +:+ ", " +:+ items members'
         end) members +:+ "}"
  end.

Definition json_str (v : json) : string :=
  match v with
  | JStr s => s
  | _ => json_repr v
  end.

(** Lines 241-248: the body of the [with] statement; [None] when the test
    of line 241 fails. *)
Definition intent_graph_entry (config : json) (json_file : string)
  : result exn (option Entry) :=
  has_ring_config ← py_in "ring_config" config;
  has_both ← (if has_ring_config : bool then py_in "instances" config
               else Ok false);
  if has_both : bool then
    ring_config ← subscript config "ring_config";
    instances ← subscript config "instances";
    width ← get_or ring_config "width" (JStr "N/A");
    height ← get_or ring_config "height" (JStr "N/A");
    pads ← py_len instances;
    Ok (Some {| e_file := json_file;
                e_size := json_str width +:+ "x" +:+ json_str height;
                e_pads := pads |})
  else Ok None.

(** Lines 237-250: one turn of the loop; whatever is raised for a file is
    swallowed by [except: continue]. *)
Definition collect_step (fs : Files) (dir_path : string)
    (intent_graphs : list Entry) (json_file : string) : list Entry :=
  match load fs dir_path json_file with
  | Some config =>
      match intent_graph_entry config json_file with
      | Ok (Some e) => intent_graphs ++ [e]
      | Ok None => intent_graphs
      | Err _ => intent_graphs
      end
  | None => intent_graphs
  end.

Definition collect (fs : Files) (dir_path : string) (json_files : list string)
  : list Entry :=
  foldl (collect_step fs dir_path) [] json_files.

Definition alt_paths : list string :=
  ["output/generated"; "src/schematic"; "output"].

(** Lines 214-227: the directory searched, [None] when the [for] loop ends
    without [break]. *)
Definition choose_directory (fs : Files) (directory : string) : option string :=
  if path_exists fs directory then Some directory
  else List.find (path_exists fs) alt_paths.

Definition entry_line (e : Entry) : string :=
  "  - " +:+ e_file e +:+ ": " +:+ e_size e +:+ " scale, "
  +:+ pretty (e_pads e) +:+ " pads" +:+ Schematic.nl.

Definition list_intent_graphs (fs : Files) (directory : string) : string :=
  match choose_directory fs directory with
  | None =>
      "❌ Error: Directory " +:+ directory +:+ " does not exist. Tried: "
      +:+ directory +:+ ", output/generated, src/schematic, output"
  | Some dir_path =>
      let json_files := glob_json fs dir_path in
      if negb (nonempty json_files) then
        "No JSON files found in directory " +:+ directory
      else
        let intent_graphs := collect fs dir_path json_files in
        if negb (nonempty intent_graphs) then
          "No valid intent graph files found in directory " +:+ directory
        else
          foldl (λ result e, result +:+ entry_line e)
            ("Found the following intent graph files in directory "
             +:+ directory +:+ ":" +:+ Schematic.nl)
            intent_graphs
  end.

(** The length of a value that has one. *)
Definition size_of (v : json) : option nat :=
  match v with
  | JList l => Some (length l)
  | JDict members => Some (length members)
  | JStr s => Some (characters s)
  | _ => None
  end.

(** A dimension of the ring, as the listing shows it. *)
Definition dimension (ring_config : list (string * json)) (k : string) : string :=
  match member k ring_config with
  | Some v => json_str v
  | None => "N/A"
  end.

(** The entry of a file that is listed: the file loads as an object, its
    [ring_config] member is an object and its [instances] member has a
    length. *)
Definition entry_of (fs : Files) (dir_path json_file : string) : option Entry :=
  match load fs dir_path json_file with
  | Some (JDict members) =>
      match member "ring_config" members, member "instances" members with
      | Some (JDict ring_config), Some instances =>
          pads ← size_of instances;
          Some {| e_file := json_file;
                  e_size := dimension ring_config "width" +:+ "x"
                            +:+ dimension ring_config "height";
                  e_pads := pads |}
      | _, _ => None
      end
  | _ => None
  end.

End Listing.

(** * More concrete inputs *)

Module MoreExamples.
Import Tool Examples.

(** The members of an intent graph beside [instances] and [ring_config]. *)
Definition named_top : dict :=
  list_to_map
    [("library_name", VStr "mylib"); ("cell_name", VStr "IO_RING");
     ("comment", VStr "draft")].

Definition small_ring_config : dict :=
  list_to_map [("width", VNum 400); ("pad_width", VNum 25)].

(** What the tool makes of [small_ring_config] under [named_top] and
    [default_table]. *)
Definition named_ring_config : dict :=
  list_to_map
    [("width", VNum 400); ("pad_width", VNum 25); ("library_name", VStr "mylib");
     ("cell_name", VStr "IO_RING"); ("pad_height", VNum 110);
     ("corner_size", VNum 110); ("pad_spacing", VNum 60);
     ("view_name", VStr "layout")].

(** A pad whose device the classifier takes for a filler. *)
Definition pad_of_filler_cell : dict :=
  descriptor "P7" "pad" "PFILLER20" (VList [VNum 170; VNum 0]).

(** An instance of a type the tool does not know. *)
Definition blockage : dict :=
  descriptor "B0" "blockage" "PBLOCK" (VList [VNum 0; VNum 50]).

Definition instances_with_filler_pad : list dict :=
  [inner_a; pad_a; pad_of_filler_cell; blockage; corner_a].







(** A [config_list] as [convert_config_to_list] may return it. *)
Definition config_list_example : list Schematic.item :=
  [Schematic.Object pad_b; Schematic.Other (VStr "ring_config");
   Schematic.Object corner_a; Schematic.Object pad_a; Schematic.Object pad_b;
   Schematic.Object small_ring_config].

End MoreExamples.

(** * Part I, verified *)

Module ToolProofs.
Import Tool.

(** ** Strings without an underscore *)

Lemma str_contains_underscore_cons (c : Ascii.ascii) (s : string) :
  str_contains "_" (String c s)
  = bool_decide (c = "_"%char) || str_contains "_" s.
Proof.
  change (str_contains "_" (String c s))
    with ((if Ascii.ascii_dec "_" c then String.prefix EmptyString s else false)
          || str_contains "_" s).
  destruct (Ascii.ascii_dec "_" c) as [<-|Hne].
  - rewrite bool_decide_eq_true_2 by done. by destruct s.
  - rewrite bool_decide_eq_false_2 by congruence. done.
Qed.

Lemma str_contains_underscore_app (a b : string) :
  str_contains "_" (a +:+ b) = str_contains "_" a || str_contains "_" b.
Proof.
  induction a as [|c a IH].
  - done.
  - change (String c a +:+ b) with (String c (a +:+ b)).
    rewrite !str_contains_underscore_cons, IH. by rewrite orb_assoc.
Qed.

Lemma pretty_N_char_no_underscore (x : N) : pretty_N_char x ≠ "_"%char.
Proof. unfold pretty_N_char. by repeat case_match. Qed.

Lemma pretty_N_go_no_underscore (x : N) (s : string) :
  str_contains "_" s = false → str_contains "_" (pretty_N_go x s) = false.
Proof.
  revert s. induction (N.lt_wf_0 x) as [x _ IH]; intros s Hs.
  assert (x = 0 ∨ 0 < x)%N as [->|Hpos] by lia.
  - by rewrite pretty_N_go_0.
  - rewrite pretty_N_go_step by done. apply IH.
    + by apply N.div_lt.
    + rewrite str_contains_underscore_cons, Hs.
      rewrite bool_decide_eq_false_2; [done|apply pretty_N_char_no_underscore].
Qed.

Lemma pretty_N_no_underscore (x : N) : str_contains "_" (pretty x) = false.
Proof.
  unfold pretty, pretty_N. case_decide; [done|].
  by apply pretty_N_go_no_underscore.
Qed.

(** Python prints an integer with digits and a sign only. *)
Lemma pretty_Z_no_underscore (z : Z) : str_contains "_" (pretty z) = false.
Proof.
  destruct z as [|p|p]; unfold pretty, pretty_Z.
  - done.
  - apply pretty_N_no_underscore.
  - rewrite str_contains_underscore_app.
    change (pretty p) with (pretty (N.pos p)). by rewrite pretty_N_no_underscore.
Qed.

Lemma absolute_not_relative (inst : dict) :
  absolute_position inst → is_relative inst = false.
Proof.
  intros (x & y & Hpos). unfold is_relative. rewrite Hpos. simpl.
  rewrite !str_contains_underscore_app, !pretty_Z_no_underscore. done.
Qed.

(** ** The component loops as filters *)

Lemma get_is_true (d : dict) (k s : string) :
  get_is d k s = true ↔ d !! k = Some (VStr s).
Proof.
  unfold get_is. destruct (d !! k) as [[z|t|l]|]; try (split; [done | congruence]).
  rewrite String.eqb_eq. split; congruence.
Qed.

Lemma get_is_exclusive (d : dict) (k s t : string) :
  s ≠ t → get_is d k s = true → get_is d k t = false.
Proof.
  intros Hne Hs. apply get_is_true in Hs.
  destruct (get_is d k t) eqn:Ht; [|done].
  apply get_is_true in Ht. congruence.
Qed.

Lemma separate_from (instances : list dict) (o i c : list dict) :
  foldl separate_step (o, i, c) instances
  = (o ++ outer_pads_of instances, i ++ inner_pads_of instances,
     c ++ corners_of instances).
Proof.
  revert o i c. induction instances as [|x l IH]; intros o i c; simpl.
  - by rewrite !app_nil_r.
  - unfold outer_pads_of, inner_pads_of, corners_of in *. simpl.
    destruct (get_is x "type" "inner_pad") eqn:Hi.
    { rewrite (get_is_exclusive x "type" "inner_pad" "pad") by done.
      rewrite (get_is_exclusive x "type" "inner_pad" "corner") by done.
      rewrite IH. by rewrite <- app_assoc. }
    destruct (get_is x "type" "pad") eqn:Hp.
    { rewrite (get_is_exclusive x "type" "pad" "corner") by done.
      rewrite IH. by rewrite <- app_assoc. }
    destruct (get_is x "type" "corner") eqn:Hc.
    { rewrite IH. by rewrite <- app_assoc. }
    apply IH.
Qed.

Lemma separate_filters (instances : list dict) :
  separate instances
  = (outer_pads_of instances, inner_pads_of instances, corners_of instances).
Proof. unfold separate. by rewrite separate_from. Qed.

Lemma nonempty_filter {A} (f : A → bool) (l : list A) :
  nonempty (List.filter f l) = existsb f l.
Proof.
  induction l as [|x l IH]; simpl; [done|].
  destruct (f x); simpl; [done|apply IH].
Qed.

Section WithCollaborators.
Context `{C : Collaborators exn}.

Lemma append_existing_from (l acc : list dict) :
  foldl append_existing acc l = acc ++ List.filter existing l.
Proof.
  revert acc. induction l as [|x l IH]; intros acc; simpl.
  - by rewrite app_nil_r.
  - rewrite IH. unfold append_existing, existing.
    destruct (is_filler x); simpl; [by rewrite <- app_assoc|].
    destruct (is_separator x); simpl; [by rewrite <- app_assoc|done].
Qed.

Lemma existsb_existing (l : list dict) :
  existsb is_filler l || existsb is_separator l = existsb existing l.
Proof.
  induction l as [|x l IH]; simpl; [done|]. rewrite <- IH. unfold existing.
  destruct (is_filler x), (is_separator x), (existsb is_filler l); simpl; done.
Qed.

(** The two branches of lines 399-415. *)
Lemma assemble_components_cases (instances : list dict) :
  assemble_components instances =
  if existsb existing instances then
    Ok (outer_pads_of instances ++ corners_of instances
          ++ List.filter existing instances ++ inner_pads_of instances)
  else
    all ← lift (auto_insert_fillers_with_inner_pads
                  (outer_pads_of instances ++ corners_of instances)
                  (inner_pads_of instances));
    Ok (all ++ inner_pads_of instances).
Proof.
  unfold assemble_components. rewrite separate_filters.
  rewrite !nonempty_filter, existsb_existing.
  destruct (existsb existing instances); [|done].
  simpl. by rewrite append_existing_from, <- !app_assoc.
Qed.

Lemma assemble_components_inner_last (instances out : list dict) :
  assemble_components instances = Ok out →
  ∃ perimeter, out = perimeter ++ inner_pads_of instances.
Proof.
  rewrite assemble_components_cases.
  destruct (existsb existing instances).
  - intros [= <-].
    exists (outer_pads_of instances ++ corners_of instances
              ++ List.filter existing instances).
    by rewrite <- !app_assoc.
  - destruct (auto_insert_fillers_with_inner_pads _ _) as [all|e]; simpl;
      [|done].
    intros [= <-]. by exists all.
Qed.

Lemma prepare_inner_pads (config : IntentGraph) (rc : dict)
    (instances : list dict) :
  resolver_keeps_inner_pads →
  prepare config = Ok (rc, instances) →
  inner_pads_of instances = inner_pads_of (instances_of config).
Proof.
  intros Hkeep. unfold prepare, instances_of.
  destruct (validate_config config); simpl; [|done].
  destruct (apply_defaults _ _) as [rc'|e]; simpl; [|done].
  unfold resolve_positions.
  destruct (existsb is_relative _).
  - destruct (convert_relative_to_absolute _ _) as [resolved|e] eqn:Hconv;
      simpl; [|done].
    intros [= _ <-]. by apply (Hkeep _ _ _ Hconv).
  - simpl. by intros [= _ <-].
Qed.

(** C7. Whenever the tool gets as far as producing its component list, the
    list ends with the inner pads of the input intent graph, each as it was
    supplied and in input order, after everything the perimeter stage
    produced (existing fillers or generated ones), provided the resolver
    leaves inner pads alone as the specification says. *)
Theorem inner_pads_pass_through (config : IntentGraph) (out : list dict) :
  resolver_keeps_inner_pads →
  visualize_components config = Ok out →
  ∃ perimeter, out = perimeter ++ inner_pads_of (instances_of config).
Proof.
  intros Hkeep. unfold visualize_components.
  destruct (prepare config) as [[rc instances]|e] eqn:Hprep; simpl; [|done].
  intros Hasm. rewrite <- (prepare_inner_pads config rc instances Hkeep Hprep).
  by apply assemble_components_inner_last.
Qed.

(** C8. When every instance carries an absolute position (a pair of
    integer coordinates), position resolution hands the instance list back
    unchanged: the resolver is not even called. *)
Theorem absolute_positions_unchanged (instances : list dict) (rc : dict) :
  Forall absolute_position instances →
  resolve_positions instances rc = Ok instances.
Proof.
  intros Habs. unfold resolve_positions.
  replace (existsb is_relative instances) with false; [done|].
  symmetry. induction Habs as [|i l Hi _ IH]; simpl; [done|].
  by rewrite (absolute_not_relative i Hi), IH.
Qed.

(** C10. When the instance list the tool works on contains a filler or a
    separator (by type, or by the classifier's verdict on its device), the
    component list is the outer pads, the corners, those fillers and
    separators in input order and the inner pads; the filler generator
    plays no part in it. *)
Theorem existing_fillers_skip_generation (config : IntentGraph) (rc : dict)
    (instances : list dict) :
  prepare config = Ok (rc, instances) →
  (∃ comp, comp ∈ instances ∧ (is_filler comp = true ∨ is_separator comp = true)) →
  visualize_components config
  = Ok (outer_pads_of instances ++ corners_of instances
          ++ List.filter existing instances ++ inner_pads_of instances).
Proof.
  intros Hprep (comp & Hin & Hcomp). unfold visualize_components.
  rewrite Hprep. simpl. rewrite assemble_components_cases.
  replace (existsb existing instances) with true; [done|].
  symmetry. apply existsb_exists. exists comp. split.
  - by apply list_elem_of_In.
  - unfold existing. destruct Hcomp as [-> | ->]; [done|apply orb_true_r].
Qed.
End WithCollaborators.

(** ** Configuration defaults *)

Lemma apply_defaults_unfold {exn} (gen rc : dict) :
  apply_defaults (exn:=exn) gen rc = defaults_from gen rc default_keys.
Proof.
  unfold apply_defaults, default_keys. simpl.
  repeat (match goal with
          | |- context [set_default ?g ?r ?k] =>
              destruct (set_default (exn:=exn) g r k); simpl; try done
          end).
Qed.

Lemma set_default_lookup {exn} (gen rc : dict) (k : string) :
  is_Some (gen !! k) →
  ∃ rc', set_default (exn:=exn) gen rc k = Ok rc' ∧
    ∀ j, rc' !! j = match rc !! j with
                    | Some v => Some v
                    | None => if decide (j = k) then gen !! k else None
                    end.
Proof.
  intros [v Hv]. unfold set_default.
  destruct (rc !! k) as [w|] eqn:Hk.
  - exists rc. split; [done|]. intros j.
    destruct (rc !! j) eqn:Hj; [done|]. case_decide; congruence.
  - rewrite Hv. exists (<[k:=v]> rc). split; [done|]. intros j.
    destruct (decide (j = k)) as [->|Hne].
    + by rewrite lookup_insert_eq, Hk.
    + rewrite lookup_insert_ne by done. by destruct (rc !! j).
Qed.

Lemma defaults_from_lookup {exn} (gen : dict) (keys : list string) (rc : dict) :
  (∀ k, k ∈ keys → is_Some (gen !! k)) →
  ∃ rc', defaults_from (exn:=exn) gen rc keys = Ok rc' ∧
    ∀ j, rc' !! j = match rc !! j with
                    | Some v => Some v
                    | None => if decide (j ∈ keys) then gen !! j else None
                    end.
Proof.
  revert rc. induction keys as [|k keys IH]; intros rc Hgen; simpl.
  - exists rc. split; [done|]. intros j. destruct (rc !! j); [done|].
    destruct (decide (j ∈ [])) as [Hin|]; [by apply elem_of_nil in Hin|done].
  - assert (is_Some (gen !! k)) as Hk by (apply Hgen, elem_of_cons; by left).
    assert (∀ j, j ∈ keys → is_Some (gen !! j)) as Hkeys
      by (intros j Hj; apply Hgen, elem_of_cons; by right).
    destruct (set_default_lookup (exn:=exn) gen rc k Hk) as (rc1 & -> & H1).
    simpl. destruct (IH rc1 Hkeys) as (rc2 & -> & H2).
    exists rc2. split; [done|]. intros j. rewrite H2, H1.
    destruct (rc !! j); [done|].
    destruct (decide (j = k)) as [->|Hne].
    + destruct Hk as [v ->].
      destruct (decide (k ∈ k :: keys)) as [_|Hn]; [done|].
      destruct Hn. apply elem_of_cons. by left.
    + destruct (decide (j ∈ keys)) as [Hin|Hnin];
        destruct (decide (j ∈ k :: keys)) as [Hin'|Hnin']; try done.
      * destruct Hnin'. apply elem_of_cons. by right.
      * apply elem_of_cons in Hin'. tauto.
Qed.

(** C9. Given a generator table that defines the six defaulted keys,
    applying the defaults to any ring configuration succeeds; what the caller
    supplied is kept, each of the six keys left unset takes the generator's
    value, and no other key appears. *)
Theorem apply_defaults_total {exn} (gen rc : dict) :
  (∀ k, k ∈ default_keys → is_Some (gen !! k)) →
  ∃ rc', apply_defaults (exn:=exn) gen rc = Ok rc' ∧
    (∀ k v, rc !! k = Some v → rc' !! k = Some v) ∧
    (∀ k, k ∈ default_keys → rc !! k = None → rc' !! k = gen !! k) ∧
    (∀ k, k ∉ default_keys → rc' !! k = rc !! k).
Proof.
  intros Hgen. rewrite apply_defaults_unfold.
  destruct (defaults_from_lookup (exn:=exn) gen default_keys rc Hgen)
    as (rc' & Hrun & Hlook).
  exists rc'. split; [done|]. repeat split.
  - intros k v Hk. by rewrite Hlook, Hk.
  - intros k Hin Hk. rewrite Hlook, Hk. by rewrite decide_True.
  - intros k Hnin. rewrite Hlook. destruct (rc !! k); [done|].
    by rewrite decide_False.
Qed.

(** The merge of lines 353-357 keeps what the ring configuration has. *)
Lemma merge_key_keeps (k : string) (top rc : dict) (j : string) (v : value) :
  rc !! j = Some v → merge_key k top rc !! j = Some v.
Proof.
  intros Hj. unfold merge_key. destruct (top !! k); [|done].
  destruct (rc !! k) eqn:Hk; [done|].
  rewrite lookup_insert_ne; [done|congruence].
Qed.

Lemma merge_top_level_keeps (top rc : dict) (j : string) (v : value) :
  rc !! j = Some v → merge_top_level top rc !! j = Some v.
Proof. intros Hj. unfold merge_top_level. by do 2 apply merge_key_keeps. Qed.

(** ** The tool on the example graphs *)

Import Examples.

Lemma example_keeps_inner_pads :
  resolver_keeps_inner_pads (H := example_collaborators).
Proof. intros l rc r [= <-]. done. Qed.

Lemma inner_pads_pass_through_witness :
  visualize_components (H := example_collaborators) graph_without_filler
    = Ok [pad_a; pad_b; corner_a; inner_a; inner_b]
  ∧ ∃ perimeter,
      [pad_a; pad_b; corner_a; inner_a; inner_b]
      = perimeter ++ inner_pads_of (instances_of graph_without_filler).
Proof.
  assert (visualize_components (H := example_collaborators) graph_without_filler
          = Ok [pad_a; pad_b; corner_a; inner_a; inner_b]) as Hrun
    by (vm_compute; reflexivity).
  split; [exact Hrun|].
  exact (inner_pads_pass_through (C := example_collaborators)
           graph_without_filler _ example_keeps_inner_pads Hrun).
Defined.

Lemma absolute_positions_unchanged_witness :
  Forall absolute_position [pad_a; inner_a]
  ∧ resolve_positions (H := example_collaborators) [pad_a; inner_a] ∅
    = Ok [pad_a; inner_a].
Proof.
  assert (Forall absolute_position [pad_a; inner_a]) as Habs.
  { repeat constructor; eexists _, _; vm_compute; reflexivity. }
  split; [exact Habs|].
  exact (absolute_positions_unchanged (C := example_collaborators) _ ∅ Habs).
Defined.

Lemma default_table_complete :
  ∀ k, k ∈ default_keys → is_Some (default_table !! k).
Proof.
  intros k Hk. unfold default_keys in Hk.
  repeat (apply elem_of_cons in Hk as [->|Hk]; [by eexists|]).
  by apply elem_of_nil in Hk.
Qed.

Lemma apply_defaults_total_witness :
  ∃ rc', apply_defaults (exn:=unit) default_table {["pad_width" := VNum 25]}
         = Ok rc' ∧
    (∀ k v, ({["pad_width" := VNum 25]} : dict) !! k = Some v → rc' !! k = Some v) ∧
    (∀ k, k ∈ default_keys → ({["pad_width" := VNum 25]} : dict) !! k = None →
          rc' !! k = default_table !! k) ∧
    (∀ k, k ∉ default_keys → rc' !! k = ({["pad_width" := VNum 25]} : dict) !! k).
Proof.
  exact (apply_defaults_total default_table {["pad_width" := VNum 25]}
           default_table_complete).
Defined.

Lemma existing_fillers_skip_generation_witness :
  prepare (H := example_collaborators) graph_with_filler
    = Ok (prepared_ring_config, instances_of graph_with_filler)
  ∧ (∃ comp, comp ∈ instances_of graph_with_filler
        ∧ (is_filler (H := example_collaborators) comp = true
           ∨ is_separator (H := example_collaborators) comp = true))
  ∧ visualize_components (H := example_collaborators) graph_with_filler
    = Ok [pad_a; pad_b; corner_a; filler_a; inner_a; inner_b].
Proof.
  assert (prepare (H := example_collaborators) graph_with_filler
          = Ok (prepared_ring_config, instances_of graph_with_filler)) as Hprep
    by (vm_compute; reflexivity).
  assert (∃ comp, comp ∈ instances_of graph_with_filler
        ∧ (is_filler (H := example_collaborators) comp = true
           ∨ is_separator (H := example_collaborators) comp = true)) as Hex.
  { exists filler_a. split; [|left; vm_compute; reflexivity].
    apply list_elem_of_In. simpl. tauto. }
  split; [exact Hprep|]. split; [exact Hex|].
  exact (existing_fillers_skip_generation (C := example_collaborators)
           graph_with_filler _ _ Hprep Hex).
Defined.

End ToolProofs.

(** * Part II, verified *)

Module LayoutProofs.
Import Layout.

(** ** Exact fill *)


Lemma valid_fill_nonneg (ws l : list Z) : valid_fill ws l → 0 ≤ sumZ l.
Proof.
  induction 1 as [|w l [_ Hw] _ IH]; simpl; [done|].
  unfold sumZ in *. simpl. lia.
Qed.

Lemma largest_fitting_from (all ws : list Z) (r : Z) (best : option Z) (w : Z) :
  (∀ x, x ∈ ws → x ∈ all) →
  (∀ b, best = Some b → b ∈ all ∧ 0 < b ≤ r) →
  foldl (λ best w,
           if (0 <? w) && (w <=? r) then
             match best with
             | Some b => Some (Z.max b w)
             | None => Some w
             end
           else best) best ws = Some w →
  w ∈ all ∧ 0 < w ≤ r.
Proof.
  revert best. induction ws as [|x ws IH]; intros best Hsub Hbest; simpl.
  - apply Hbest.
  - apply IH.
    + intros y Hy. apply Hsub, elem_of_cons. by right.
    + assert (x ∈ all) as Hx by (apply Hsub, elem_of_cons; by left).
      intros b. destruct ((0 <? x) && (x <=? r)) eqn:Hfit; [|apply Hbest].
      apply andb_true_iff in Hfit as [H0 Hr].
      apply Z.ltb_lt in H0. apply Z.leb_le in Hr.
      destruct best as [b0|]; intros [= <-]; [|done].
      destruct (Hbest b0 eq_refl) as [Hb0 Hb0r].
      destruct (Z.max_spec b0 x) as [[_ ->]|[_ ->]]; done.
Qed.

Lemma largest_fitting_fits (ws : list Z) (r w : Z) :
  largest_fitting ws r = Some w → w ∈ ws ∧ 0 < w ≤ r.
Proof. apply largest_fitting_from; [done|]. intros b [=]. Qed.

Lemma greedy_fill_sound (fuel : nat) (ws : list Z) (r : Z) (l : list Z) :
  greedy_fill fuel ws r = Some l → valid_fill ws l ∧ sumZ l = r.
Proof.
  revert r l. induction fuel as [|fuel IH]; intros r l; simpl.
  - destruct (r =? 0) eqn:Hr; [|done]. intros [= <-].
    apply Z.eqb_eq in Hr. by split; [constructor|].
  - destruct (r =? 0) eqn:Hr.
    { intros [= <-]. apply Z.eqb_eq in Hr. by split; [constructor|]. }
    destruct (largest_fitting ws r) as [w|] eqn:Hw; [|done].
    destruct (greedy_fill fuel ws (r - w)) as [l'|] eqn:Hl'; [|done].
    simpl. intros [= <-]. apply largest_fitting_fits in Hw as [Hin Hfit].
    destruct (IH _ _ Hl') as [Hvalid Hsum]. split.
    + constructor; [split; [done|lia]|done].
    + unfold sumZ in *. simpl. lia.
Qed.

Lemma fewer_cases (a b : option (list Z)) : fewer a b = a ∨ fewer a b = b.
Proof.
  destruct a as [x|], b as [y|]; simpl; auto.
  destruct (length y <? length x)%nat; auto.
Qed.

Lemma fewer_None (a b : option (list Z)) : fewer a b = None → a = None ∧ b = None.
Proof.
  destruct a as [x|], b as [y|]; simpl; try done.
  destruct (length y <? length x)%nat; done.
Qed.

Section Table.
Variable ws : list Z.
Variable table : list (option (list Z)).
Variable v : nat.
Hypothesis table_ok : ∀ u e, table !! u = Some e → entry_ok ws u e.
Hypothesis table_full : ∀ u, (u < v)%nat → is_Some (table !! u).

Lemma dp_step_sound (best : option (list Z)) (w : Z) (l : list Z) :
  w ∈ ws →
  (∀ l, best = Some l → valid_fill ws l ∧ sumZ l = Z.of_nat v) →
  dp_step table v best w = Some l → valid_fill ws l ∧ sumZ l = Z.of_nat v.
Proof.
  intros Hw Hbest. unfold dp_step.
  destruct ((0 <? w) && (w <=? Z.of_nat v)) eqn:Hfit; [|apply Hbest].
  apply andb_true_iff in Hfit as [H0 Hv].
  apply Z.ltb_lt in H0. apply Z.leb_le in Hv.
  destruct (table !! (v - Z.to_nat w)%nat) as [[l'|]|] eqn:Hl'; try apply Hbest.
  apply table_ok in Hl'. destruct Hl' as [Hvalid Hsum].
  destruct (fewer_cases best (Some (w :: l'))) as [-> | ->]; [apply Hbest|].
  intros [= <-]. split.
  - by constructor.
  - unfold sumZ in *. simpl. lia.
Qed.

Lemma dp_fold_sound (ws' : list Z) (best : option (list Z)) (l : list Z) :
  (∀ w, w ∈ ws' → w ∈ ws) →
  (∀ l, best = Some l → valid_fill ws l ∧ sumZ l = Z.of_nat v) →
  foldl (dp_step table v) best ws' = Some l →
  valid_fill ws l ∧ sumZ l = Z.of_nat v.
Proof.
  revert best. induction ws' as [|w ws' IH]; intros best Hsub Hbest; simpl.
  - apply Hbest.
  - apply IH.
    + intros y Hy. apply Hsub, elem_of_cons. by right.
    + intros l'. apply dp_step_sound; [|done].
      apply Hsub, elem_of_cons. by left.
Qed.

Lemma dp_fold_None (ws' : list Z) (best : option (list Z)) :
  foldl (dp_step table v) best ws' = None →
  best = None ∧ ∀ w, w ∈ ws' → dp_step table v None w = None.
Proof.
  revert best. induction ws' as [|w ws' IH]; intros best; simpl.
  - intros ->. split; [done|]. intros w Hw. by apply elem_of_nil in Hw.
  - intros Hfold. destruct (IH _ Hfold) as [Hstep Hrest].
    assert (best = None) as ->.
    { unfold dp_step in Hstep.
      destruct ((0 <? w) && (w <=? Z.of_nat v)); [|done].
      destruct (table !! (v - Z.to_nat w)%nat) as [[l'|]|]; try done.
      by apply fewer_None in Hstep as [-> _]. }
    split; [done|]. intros y Hy. apply elem_of_cons in Hy as [->|Hy]; auto.
Qed.

Lemma dp_entry_ok : (0 < v)%nat → entry_ok ws v (dp_entry ws table v).
Proof.
  intros Hv. unfold dp_entry.
  destruct (foldl (dp_step table v) None ws) as [l|] eqn:Hfold; simpl.
  - by apply (dp_fold_sound ws None l).
  - apply dp_fold_None in Hfold as [_ Hnone].
    intros l Hvalid Hsum. destruct Hvalid as [|w l [Hw H0] Hl].
    { unfold sumZ in Hsum. simpl in Hsum. lia. }
    pose proof (valid_fill_nonneg ws l Hl) as Hnn.
    unfold sumZ in Hsum, Hnn. simpl in Hsum.
    specialize (Hnone w Hw). unfold dp_step in Hnone.
    replace ((0 <? w) && (w <=? Z.of_nat v)) with true in Hnone.
    2:{ symmetry. apply andb_true_iff. split; [apply Z.ltb_lt|apply Z.leb_le]; lia. }
    destruct (table_full (v - Z.to_nat w)%nat) as [e He]; [lia|].
    rewrite He in Hnone. destruct e as [l'|]; [done|].
    apply table_ok in He. apply (He l Hl). unfold sumZ. lia.
Qed.
End Table.

Lemma dp_table_length (ws : list Z) (n : nat) : length (dp_table ws n) = S n.
Proof. induction n as [|n IH]; simpl; [done|]. rewrite length_app, IH. simpl. lia. Qed.

Lemma dp_table_ok (ws : list Z) (n u : nat) (e : option (list Z)) :
  dp_table ws n !! u = Some e → entry_ok ws u e.
Proof.
  revert u e. induction n as [|n IH]; intros u e; simpl.
  - destruct u as [|u]; [|done]. intros [= <-]. simpl. by split; [constructor|].
  - intros Hu. apply lookup_app_Some in Hu as [Hu|[Hlen Hu]]; [by apply IH|].
    rewrite dp_table_length in Hlen, Hu.
    destruct (u - S n)%nat as [|k] eqn:Hk; [|done].
    injection Hu as <-. assert (u = S n) as -> by lia.
    apply dp_entry_ok; [apply IH| |lia].
    intros u Hu. apply lookup_lt_is_Some. rewrite dp_table_length. lia.
Qed.

Lemma dp_fill_ok (ws : list Z) (r : Z) :
  0 ≤ r → entry_ok ws (Z.to_nat r) (dp_fill ws r).
Proof.
  intros Hr. unfold dp_fill.
  destruct (dp_table ws (Z.to_nat r) !! Z.to_nat r) as [e|] eqn:He.
  - simpl. by apply dp_table_ok in He.
  - apply lookup_ge_None in He. rewrite dp_table_length in He. lia.
Qed.

(** Whatever the exact fill returns tiles the length exactly ... *)
Lemma fill_exact_sound (ws : list Z) (r : Z) (l : list Z) :
  fill_exact ws r = Some l → valid_fill ws l ∧ sumZ l = r.
Proof.
  unfold fill_exact. destruct (r <? 0) eqn:Hr; [done|]. apply Z.ltb_ge in Hr.
  destruct (greedy_fill (Z.to_nat r) ws r) as [g|] eqn:Hg.
  - intros [= <-]. by apply greedy_fill_sound in Hg.
  - intros Hdp. pose proof (dp_fill_ok ws r Hr) as Hok. rewrite Hdp in Hok.
    simpl in Hok. destruct Hok as [? ?]. split; [done|lia].
Qed.

(** ... and it gives up only when no choice of cells does. *)
Lemma fill_exact_complete (ws : list Z) (r : Z) :
  fill_exact ws r = None → ∀ l, valid_fill ws l → sumZ l ≠ r.
Proof.
  unfold fill_exact. destruct (r <? 0) eqn:Hr.
  - apply Z.ltb_lt in Hr. intros _ l Hl%valid_fill_nonneg. lia.
  - apply Z.ltb_ge in Hr.
    destruct (greedy_fill (Z.to_nat r) ws r) as [g|] eqn:Hg; [done|].
    intros Hdp. pose proof (dp_fill_ok ws r Hr) as Hok. rewrite Hdp in Hok.
    simpl in Hok. intros l Hl Hsum. apply (Hok l Hl). lia.
Qed.

(** ** Laying out cells *)








(** ** One gap *)


(** ** One side *)


(** ** Sorting and grouping keep what holds of every instance *)







(** ** What the resolver returns *)




(** ** The rows of a layout *)












(** ** The resolver: references *)

Lemma existsb_has_name (r : string) (l : list Instance) :
  existsb (has_name r) l = true ↔ r ∈ map name l.
Proof.
  rewrite existsb_exists, list_elem_of_In, in_map_iff. unfold has_name.
  split; intros (i & H1 & H2); exists i.
  - apply String.eqb_eq in H2. done.
  - by rewrite String.eqb_eq.
Qed.

Lemma check_references_dangling (graph todo : list Instance) :
  (∃ i r d, i ∈ todo ∧ position i = Relative r d ∧ r ∉ map name graph) →
  ∃ i r, check_references graph todo = Err (UnresolvedReferenceError i r)
         ∧ r ∉ map name graph.
Proof.
  induction todo as [|i0 todo IH]; intros (i & r & d & Hin & Hpos & Hr).
  - by apply elem_of_nil in Hin.
  - simpl. destruct (position i0) as [p|r0 d0] eqn:Hpos0.
    + apply IH. exists i, r, d. repeat split; try done.
      apply elem_of_cons in Hin as [->|Hin]; [congruence|done].
    + destruct (existsb (has_name r0) graph) eqn:Hex.
      * apply IH. exists i, r, d. repeat split; try done.
        apply elem_of_cons in Hin as [->|Hin]; [|done].
        apply existsb_has_name in Hex. congruence.
      * exists (name i0), r0. split; [done|].
        intros Hin0. apply existsb_has_name in Hin0. congruence.
Qed.

Lemma check_references_ok (graph todo : list Instance) :
  (∀ i r d, i ∈ todo → position i = Relative r d → r ∈ map name graph) →
  check_references graph todo = Ok ().
Proof.
  induction todo as [|i0 todo IH]; intros Hrefs; simpl; [done|].
  assert (check_references graph todo = Ok ()) as Htl.
  { apply IH. intros i r d Hi. apply Hrefs, elem_of_cons. by right. }
  destruct (position i0) as [p|r0 d0] eqn:Hpos0; [done|].
  rewrite (proj2 (existsb_has_name r0 graph)); [done|].
  apply (Hrefs i0 r0 d0); [apply elem_of_cons; by left|done].
Qed.

(** ** A set of names that depend on one another is never resolved *)

Section Blocked.
Variable names : list string.
Variable l : list Instance.
Hypothesis names_blocked : blocked names l.

Lemma resolve_step_blocked (known : gmap string Z) (i : Instance) :
  i ∈ l → none_known names known → none_known names (resolve_step known i).
Proof.
  intros Hi Hknown n Hn. unfold resolve_step.
  destruct (position i) as [p|r d] eqn:Hpos.
  - rewrite lookup_insert_ne; [by apply Hknown|].
    intros Heq. destruct (names_blocked i Hi) as (r & d & Hrel & _); congruence.
  - destruct (known !! r) as [base|] eqn:Hbase; [|by apply Hknown].
    rewrite lookup_insert_ne; [by apply Hknown|].
    intros Heq. destruct (names_blocked i Hi) as (r' & d' & Hrel & Hr');
      [congruence|].
    assert (r' = r) as -> by congruence.
    rewrite (Hknown r Hr') in Hbase. done.
Qed.

Lemma resolve_fold_blocked (l' : list Instance) (known : gmap string Z) :
  (∀ i, i ∈ l' → i ∈ l) → none_known names known →
  none_known names (foldl resolve_step known l').
Proof.
  revert known. induction l' as [|i l' IH]; intros known Hsub Hknown; simpl.
  - done.
  - apply IH.
    + intros j Hj. apply Hsub, elem_of_cons. by right.
    + apply resolve_step_blocked; [|done]. apply Hsub, elem_of_cons. by left.
Qed.

Lemma resolve_passes_blocked (n : nat) (known : gmap string Z) :
  none_known names known → none_known names (resolve_passes n l known).
Proof.
  revert known. induction n as [|n IH]; intros known Hknown; simpl; [done|].
  apply IH. by apply resolve_fold_blocked.
Qed.
End Blocked.

Lemma name_unique (l : list Instance) (i j : Instance) :
  NoDup (map name l) → i ∈ l → j ∈ l → name i = name j → i = j.
Proof.
  induction l as [|x l IH]; simpl; intros Hnd Hi Hj Heq.
  - by apply elem_of_nil in Hi.
  - apply NoDup_cons in Hnd as [Hx Hnd].
    assert (∀ y, y ∈ l → name y ≠ name x) as Hfresh.
    { intros y Hy Hyx. apply Hx. rewrite <- Hyx.
      apply list_elem_of_In, in_map, list_elem_of_In, Hy. }
    apply elem_of_cons in Hi as [->|Hi]; apply elem_of_cons in Hj as [->|Hj].
    + done.
    + by destruct (Hfresh j Hj).
    + by destruct (Hfresh i Hi).
    + by apply IH.
Qed.

Lemma chain_edges (l : list Instance) (via : list string) :
  ∀ a z, chain l a via z →
    ∀ n, n ∈ a :: via → ∃ m, m ∈ via ++ [z] ∧ ref_edge l n m.
Proof.
  induction via as [|b via IH]; intros a z; simpl.
  - intros Hedge n Hn. apply list_elem_of_singleton in Hn as ->.
    exists z. split; [apply list_elem_of_singleton; done|done].
  - intros [Hedge Hchain] n Hn. apply elem_of_cons in Hn as [->|Hn].
    + exists b. split; [apply elem_of_cons; by left|done].
    + destruct (IH b z Hchain n Hn) as (m & Hm & He).
      exists m. split; [apply elem_of_cons; by right|done].
Qed.

Lemma cycle_blocked (l : list Instance) (a : string) (via : list string) :
  NoDup (map name l) → chain l a via a → blocked (a :: via) l.
Proof.
  intros Hnd Hchain i Hi Hname.
  destruct (chain_edges l via a a Hchain (name i) Hname) as (m & Hm & He).
  destruct He as (j & d & Hj & Hnj & Hpos).
  assert (j = i) as -> by (by apply (name_unique l)).
  exists m, d. split; [done|].
  apply elem_of_app in Hm as [Hm|Hm].
  - apply elem_of_cons. by right.
  - apply list_elem_of_singleton in Hm as ->. apply elem_of_cons. by left.
Qed.

(** C5, as amended.  On a graph whose relative references form no cycle, a
    relative position that names no instance makes the resolver fail with
    [UnresolvedReferenceError].  On a graph in which every reference names an
    instance (names being unique, as the data model requires), a cycle of
    relative references makes it fail with [CyclicReferenceError], which
    lists every instance on the cycle.  No instance is returned in either
    case. *)
Theorem resolver_errors (l : list Instance) :
  (dangling l → ¬ cyclic l →
     ∃ i r, resolve l = Err (UnresolvedReferenceError i r) ∧ r ∉ map name l)
  ∧ (NoDup (map name l) → ¬ dangling l →
     ∀ a via, chain l a via a →
       ∃ stuck, resolve l = Err (CyclicReferenceError stuck)
                ∧ ∀ n, n ∈ a :: via → n ∈ stuck).
Proof.
  split.
  - intros Hd _.
    destruct (check_references_dangling l l Hd) as (i & r & Hchk & Hr).
    exists i, r. split; [|done]. unfold resolve. by rewrite Hchk.
  - intros Hnd Hno a via Hchain. unfold resolve.
    rewrite check_references_ok.
    2:{ intros i r d Hi Hpos. destruct (decide (r ∈ map name l)) as [|Hr]; [done|].
        destruct Hno. by exists i, r, d. }
    cbn. set (known := resolve_passes (length l) l ∅).
    assert (none_known (a :: via) known) as Hknown.
    { apply resolve_passes_blocked; [by apply cycle_blocked|].
      intros n _. apply lookup_empty. }
    assert (∀ n, n ∈ a :: via → n ∈ map name (List.filter (unresolved known) l))
      as Hstuck.
    { intros n Hn.
      destruct (chain_edges l via a a Hchain n Hn) as (_ & _ & i & _ & Hi & <- & _).
      apply list_elem_of_In, in_map, List.filter_In. split.
      - by apply list_elem_of_In.
      - unfold unresolved. by rewrite (Hknown (name i) Hn). }
    destruct (List.filter (unresolved known) l) as [|i0 stuck] eqn:Hfilter.
    + specialize (Hstuck a ltac:(apply elem_of_cons; by left)).
      by apply elem_of_nil in Hstuck.
    + eexists. split; [done|]. exact Hstuck.
Qed.

(** ** The fixed point is reached *)

Lemma resolve_step_mono (known : gmap string Z) (i : Instance) (n : string) :
  is_Some (known !! n) → is_Some (resolve_step known i !! n).
Proof.
  intros Hn. unfold resolve_step.
  destruct (position i) as [p|r d].
  - destruct (decide (name i = n)) as [<-|Hne].
    + rewrite lookup_insert_eq. by eexists.
    + by rewrite lookup_insert_ne.
  - destruct (known !! r); [|done].
    destruct (decide (name i = n)) as [<-|Hne].
    + rewrite lookup_insert_eq. by eexists.
    + by rewrite lookup_insert_ne.
Qed.

Lemma resolve_fold_mono (l : list Instance) (known : gmap string Z) (n : string) :
  is_Some (known !! n) → is_Some (foldl resolve_step known l !! n).
Proof.
  revert known. induction l as [|i l IH]; intros known Hn; simpl; [done|].
  by apply IH, resolve_step_mono.
Qed.

Lemma resolve_pass_resolves (l : list Instance) (known : gmap string Z)
    (i : Instance) :
  i ∈ l →
  (match position i with
   | Absolute _ => True
   | Relative r _ => is_Some (known !! r)
   end) →
  is_Some (resolve_pass l known !! name i).
Proof.
  intros Hi Hready. apply list_elem_of_split in Hi as (l1 & l2 & ->).
  unfold resolve_pass. rewrite foldl_app. simpl.
  apply resolve_fold_mono. unfold resolve_step at 1.
  destruct (position i) as [p|r d].
  - rewrite lookup_insert_eq. by eexists.
  - destruct (resolve_fold_mono l1 known r Hready) as [b ->].
    rewrite lookup_insert_eq. by eexists.
Qed.

Lemma resolve_passes_snoc (n : nat) (l : list Instance) (known : gmap string Z) :
  resolve_passes (S n) l known = resolve_pass l (resolve_passes n l known).
Proof.
  revert known. induction n as [|n IH]; intros known; [done|].
  change (resolve_passes (S (S n)) l known)
    with (resolve_passes (S n) l (resolve_pass l known)).
  by rewrite IH.
Qed.

Lemma resolve_passes_mono (n : nat) (l : list Instance) (known : gmap string Z)
    (x : string) :
  is_Some (known !! x) → is_Some (resolve_passes n l known !! x).
Proof.
  revert known. induction n as [|n IH]; intros known Hx; simpl; [done|].
  by apply IH, resolve_fold_mono.
Qed.

Lemma declared_resolved (l : list Instance) (n : string) (k : nat) (v : Z) :
  declared l n k v →
  ∀ m known, (k < m)%nat → is_Some (resolve_passes m l known !! n).
Proof.
  induction 1 as [i p Hi Hp|i r d k b Hi Hp Hr IH]; intros m known Hm.
  - destruct m as [|m]; [lia|]. rewrite resolve_passes_snoc.
    apply resolve_pass_resolves; [done|by rewrite Hp].
  - destruct m as [|m]; [lia|]. rewrite resolve_passes_snoc.
    apply resolve_pass_resolves; [done|]. rewrite Hp. apply IH. lia.
Qed.

(** ** What is resolved is what was declared *)

Lemma resolve_step_consistent (l : list Instance) (known : gmap string Z)
    (i : Instance) :
  i ∈ l → consistent l known → consistent l (resolve_step known i).
Proof.
  intros Hi Hknown n v. unfold resolve_step.
  destruct (position i) as [p|r d] eqn:Hp.
  - destruct (decide (name i = n)) as [<-|Hne].
    + rewrite lookup_insert_eq. intros [= <-]. exists 0%nat. by constructor.
    + rewrite lookup_insert_ne by done. apply Hknown.
  - destruct (known !! r) as [b|] eqn:Hb; [|apply Hknown].
    destruct (decide (name i = n)) as [<-|Hne].
    + rewrite lookup_insert_eq. intros [= <-].
      destruct (Hknown r b Hb) as [k Hk]. exists (S k).
      by apply (declared_relative l i r d k b).
    + rewrite lookup_insert_ne by done. apply Hknown.
Qed.

Lemma resolve_fold_consistent (l l' : list Instance) (known : gmap string Z) :
  (∀ i, i ∈ l' → i ∈ l) → consistent l known →
  consistent l (foldl resolve_step known l').
Proof.
  revert known. induction l' as [|i l' IH]; intros known Hsub Hknown; simpl.
  - done.
  - apply IH.
    + intros j Hj. apply Hsub, elem_of_cons. by right.
    + apply resolve_step_consistent; [|done]. apply Hsub, elem_of_cons. by left.
Qed.

Lemma resolve_passes_consistent (n : nat) (l : list Instance)
    (known : gmap string Z) :
  consistent l known → consistent l (resolve_passes n l known).
Proof.
  revert known. induction n as [|n IH]; intros known Hknown; simpl; [done|].
  apply IH. by apply resolve_fold_consistent.
Qed.

(** ** Without a cycle every reference chain ends *)

Lemma path_app_r (l : list Instance) (c1 c2 : list string) :
  path l (c1 ++ c2) → path l c2.
Proof.
  induction c1 as [|a c1 IH]; simpl; [done|].
  destruct (c1 ++ c2) as [|b c] eqn:Hc.
  - apply app_eq_nil in Hc as [_ ->]. done.
  - intros [_ Hp]. by apply IH.
Qed.

Lemma path_app_l (l : list Instance) (c1 c2 : list string) :
  path l (c1 ++ c2) → path l c1.
Proof.
  induction c1 as [|a c1 IH]; simpl; [done|].
  destruct c1 as [|b c1]; simpl in *; [done|].
  intros [He Hp]. split; [done|]. by apply IH.
Qed.

Lemma chain_path (l : list Instance) (via : list string) (a z : string) :
  chain l a via z ↔ path l (a :: via ++ [z]).
Proof.
  revert a. induction via as [|b via IH]; intros a; simpl.
  - tauto.
  - rewrite IH. simpl. tauto.
Qed.

Lemma repeated_name (c : list string) :
  ¬ NoDup c → ∃ pre x mid post, c = pre ++ x :: mid ++ x :: post.
Proof.
  induction c as [|a c IH]; intros Hdup.
  - destruct Hdup. constructor.
  - destruct (decide (a ∈ c)) as [Hin|Hnin].
    + apply list_elem_of_split in Hin as (mid & post & ->).
      by exists [], a, mid, post.
    + destruct IH as (pre & x & mid & post & ->).
      { intros Hnd. apply Hdup. by constructor. }
      by exists (a :: pre), x, mid, post.
Qed.

Lemma path_sources (l : list Instance) (c : list string) (z : string) :
  path l (c ++ [z]) → ∀ x, x ∈ c → x ∈ map name l.
Proof.
  induction c as [|a c IH]; intros Hp x Hx.
  - by apply elem_of_nil in Hx.
  - simpl in Hp. destruct (c ++ [z]) as [|b c'] eqn:Hc; [by destruct c|].
    destruct Hp as [(i & d & Hi & Hn & _) Hp].
    apply elem_of_cons in Hx as [->|Hx].
    + rewrite <- Hn. apply list_elem_of_In, in_map, list_elem_of_In, Hi.
    + by apply IH.
Qed.

Lemma path_target (l : list Instance) (c : list string) (a z : string) :
  ¬ dangling l → path l (a :: c ++ [z]) → z ∈ map name l.
Proof.
  intros Hno. revert a. induction c as [|b c IH]; intros a; simpl.
  - intros [(i & d & Hi & _ & Hp) _].
    destruct (decide (z ∈ map name l)) as [|Hz]; [done|].
    destruct Hno. by exists i, z, d.
  - intros [_ Hp]. by apply (IH b).
Qed.

Lemma long_path_cyclic (l : list Instance) (via : list string) (a z : string) :
  ¬ dangling l → chain l a via z → (length l ≤ S (length via))%nat → cyclic l.
Proof.
  intros Hno Hchain Hlen. apply chain_path in Hchain.
  set (c := a :: via ++ [z]) in *.
  assert (∀ x, x ∈ c → x ∈ map name l) as Hsub.
  { intros x Hx. unfold c in Hx. rewrite app_comm_cons in Hx.
    apply elem_of_app in Hx as [Hx|Hx].
    - apply (path_sources l (a :: via) z); [|done]. by rewrite <- app_comm_cons.
    - apply list_elem_of_singleton in Hx as ->. by apply (path_target l via a). }
  assert (¬ NoDup c) as Hdup.
  { intros Hnd. pose proof (submseteq_length _ _ (NoDup_submseteq _ _ Hnd Hsub)) as Hle.
    unfold c in Hle. rewrite length_map in Hle. simpl in Hle.
    rewrite length_app in Hle. simpl in Hle. lia. }
  apply repeated_name in Hdup as (pre & x & mid & post & Hc).
  rewrite Hc in Hchain. apply path_app_r in Hchain.
  replace (x :: mid ++ x :: post) with ((x :: mid ++ [x]) ++ post) in Hchain
    by (by rewrite <- !app_comm_cons, <- app_assoc).
  apply path_app_l in Hchain. apply chain_path in Hchain.
  by exists x, mid.
Qed.

Lemma follow_references (l : list Instance) (m : nat) :
  ¬ dangling l →
  ∀ n, n ∈ map name l →
    (∃ k v, (k ≤ m)%nat ∧ declared l n k v)
    ∨ (∃ via z, length via = m ∧ chain l n via z).
Proof.
  intros Hno. induction m as [|m IH]; intros n Hn.
  - apply list_elem_of_In, in_map_iff in Hn as (i & <- & Hi).
    apply list_elem_of_In in Hi.
    destruct (position i) as [p|r d] eqn:Hp.
    + left. exists 0%nat, p. split; [done|by constructor].
    + right. exists [], r. split; [done|]. by exists i, d.
  - apply list_elem_of_In, in_map_iff in Hn as (i & <- & Hi).
    apply list_elem_of_In in Hi.
    destruct (position i) as [p|r d] eqn:Hp.
    + left. exists 0%nat, p. split; [lia|by constructor].
    + assert (r ∈ map name l) as Hr.
      { destruct (decide (r ∈ map name l)) as [|Hr]; [done|].
        destruct Hno. by exists i, r, d. }
      destruct (IH r Hr) as [(k & v & Hk & Hd)|(via & z & Hlen & Hchain)].
      * left. exists (S k), (v + d). split; [lia|].
        by apply (declared_relative l i r d k v).
      * right. exists (r :: via), z. split; [simpl; by rewrite Hlen|].
        split; [by exists i, d|done].
Qed.

Lemma acyclic_declared (l : list Instance) (i : Instance) :
  ¬ dangling l → ¬ cyclic l → i ∈ l →
  ∃ k v, (k < length l)%nat ∧ declared l (name i) k v.
Proof.
  intros Hno Hacyclic Hi.
  assert (name i ∈ map name l) as Hn
    by (apply list_elem_of_In, in_map, list_elem_of_In, Hi).
  assert (0 < length l)%nat as Hpos.
  { destruct l; [by apply elem_of_nil in Hi|simpl; lia]. }
  destruct (follow_references l (length l - 1) Hno (name i) Hn)
    as [(k & v & Hk & Hd)|(via & z & Hlen & Hchain)].
  - exists k, v. split; [lia|done].
  - destruct Hacyclic. apply (long_path_cyclic l via (name i) z); [done..|lia].
Qed.

Lemma all_resolved (known : gmap string Z) (l : list Instance) :
  (∀ i, i ∈ l → is_Some (known !! name i)) →
  List.filter (unresolved known) l = [].
Proof.
  induction l as [|x l IH]; intros Hall; simpl; [done|].
  unfold unresolved at 1.
  destruct (Hall x) as [v ->]; [apply elem_of_cons; by left|].
  apply IH. intros i Hi. apply Hall, elem_of_cons. by right.
Qed.

(** The resolver resolves every graph whose references all exist and form no
    cycle, each instance to the position it declares. *)
Lemma resolve_complete (l : list Instance) :
  ¬ dangling l → ¬ cyclic l →
  ∃ resolved, resolve l = Ok resolved
    ∧ map name resolved = map name l
    ∧ Forall (λ i, ∃ k v, resolved_position i = Some v ∧ declared l (name i) k v)
        resolved.
Proof.
  intros Hno Hacyclic. unfold resolve. rewrite check_references_ok.
  2:{ intros i r d Hi Hpos. destruct (decide (r ∈ map name l)) as [|Hr]; [done|].
      destruct Hno. by exists i, r, d. }
  cbn. set (known := resolve_passes (length l) l ∅).
  assert (∀ i, i ∈ l → is_Some (known !! name i)) as Hall.
  { intros i Hi. destruct (acyclic_declared l i Hno Hacyclic Hi) as (k & v & Hk & Hd).
    by apply (declared_resolved l _ k v). }
  assert (consistent l known) as Hcons.
  { apply resolve_passes_consistent. intros n v. by rewrite lookup_empty. }
  replace (List.filter (unresolved known) l) with (@nil Instance).
  - eexists. split; [done|]. split.
    + rewrite map_map. done.
    + apply Forall_forall. intros j Hj.
      apply list_elem_of_In, in_map_iff in Hj as (i & <- & Hi).
      apply list_elem_of_In in Hi. destruct (Hall i Hi) as [v Hv].
      destruct (Hcons _ _ Hv) as [k Hk]. exists k, v. by split.
  - symmetry. by apply all_resolved.
Qed.

(** ** A graph without relative positions *)

Lemma fold_untouched (l : list Instance) (known : gmap string Z) (n : string) :
  all_absolute l → n ∉ map name l →
  foldl resolve_step known l !! n = known !! n.
Proof.
  revert known. induction l as [|x l IH]; intros known Habs Hn; simpl; [done|].
  inversion Habs as [|? ? [p Hp] Hl]; subst.
  rewrite IH; [|done|].
  - unfold resolve_step. rewrite Hp. apply lookup_insert_ne.
    intros Heq. apply Hn. simpl. apply elem_of_cons. by left.
  - intros Hin. apply Hn. simpl. apply elem_of_cons. by right.
Qed.

Lemma fold_absolute (l : list Instance) (known : gmap string Z) (i : Instance) (p : Z) :
  all_absolute l → NoDup (map name l) → i ∈ l → position i = Absolute p →
  foldl resolve_step known l !! name i = Some p.
Proof.
  revert known. induction l as [|x l IH]; intros known Habs Hnd Hi Hp; simpl.
  - by apply elem_of_nil in Hi.
  - inversion Habs as [|? ? [q Hq] Hl]; subst.
    simpl in Hnd. apply NoDup_cons in Hnd as [Hx Hnd].
    apply elem_of_cons in Hi as [->|Hi]; [|by apply IH].
    rewrite fold_untouched by done.
    unfold resolve_step. rewrite Hp. apply lookup_insert_eq.
Qed.

Lemma passes_absolute (n : nat) (l : list Instance) (known : gmap string Z)
    (i : Instance) (p : Z) :
  all_absolute l → NoDup (map name l) → i ∈ l → position i = Absolute p →
  (0 < n)%nat → resolve_passes n l known !! name i = Some p.
Proof.
  intros Habs Hnd Hi Hp. revert known.
  induction n as [|n IH]; intros known Hn; [lia|]. simpl.
  destruct n as [|n]; [|apply IH; lia].
  simpl. by apply fold_absolute.
Qed.

(** Resolving a graph whose positions are all absolute succeeds, and every
    instance is resolved to the very position it declares. *)
Lemma resolve_absolute (l : list Instance) :
  all_absolute l → NoDup (map name l) →
  ∃ resolved, resolve l = Ok resolved
    ∧ map position resolved = map position l
    ∧ Forall (λ i, position i = Absolute (default 0 (resolved_position i))
                   ∧ is_Some (resolved_position i)) resolved.
Proof.
  intros Habs Hnd. unfold resolve. rewrite check_references_ok.
  2:{ intros i r d Hi Hpos.
      destruct (proj1 (Forall_forall _ _) Habs i Hi) as [p Hp]. congruence. }
  cbn. set (known := resolve_passes (length l) l ∅).
  assert (∀ i p, i ∈ l → position i = Absolute p → known !! name i = Some p)
    as Hknown.
  { intros i p Hi Hp. apply passes_absolute; try done.
    destruct l; [by apply elem_of_nil in Hi|simpl; lia]. }
  replace (List.filter (unresolved known) l) with (@nil Instance).
  - eexists. split; [done|]. split.
    + rewrite map_map. simpl. done.
    + apply Forall_forall. intros j Hj.
      apply list_elem_of_In, in_map_iff in Hj as (i & <- & Hi).
      apply list_elem_of_In in Hi.
      destruct (proj1 (Forall_forall _ _) Habs i Hi) as [p Hp].
      simpl. rewrite (Hknown i p Hi Hp). simpl. by split.
  - symmetry. clear -Habs Hknown.
    assert (∀ i, i ∈ l → unresolved known i = false) as Hres.
    { intros i Hi. destruct (proj1 (Forall_forall _ _) Habs i Hi) as [p Hp].
      unfold unresolved. by rewrite (Hknown i p Hi Hp). }
    clear Habs Hknown. generalize dependent known. intros known Hres.
    induction l as [|x l IH]; simpl; [done|].
    rewrite Hres by (apply elem_of_cons; by left).
    apply IH. intros i Hi. apply Hres, elem_of_cons. by right.
Qed.


(** ** The sides of a layout *)









(** ** Gaps that fail, gaps that are filled *)

Lemma fill_row_fails (cat : FillerCatalog) (s : Side) (prev next : Placed)
    (after : list Placed) :
  (∀ g, is_ok (fill_gap cat s g prev next) = false) →
  ∀ before g first rest,
    first :: rest = before ++ prev :: next :: after →
    is_ok (fill_row cat s g first rest) = false.
Proof.
  intros Hgap. induction before as [|b before IH]; intros g first rest; simpl.
  - intros [= -> ->]. simpl. specialize (Hgap g).
    by destruct (fill_gap cat s g prev next).
  - intros [= -> ->].
    destruct (before ++ prev :: next :: after) as [|x rest'] eqn:Hrest.
    { by destruct before. }
    simpl. destruct (fill_gap cat s g b x); simpl; [|done].
    specialize (IH (S g) x rest' eq_refl).
    by destruct (fill_row cat s (S g) x rest').
Qed.

Lemma fill_side_fails (cat : FillerCatalog) (s : Side) (prev next : Placed) :
  (∀ g, is_ok (fill_gap cat s g prev next) = false) →
  ∀ before after, is_ok (fill_side cat s (before ++ prev :: next :: after)) = false.
Proof.
  intros Hgap before after. unfold fill_side.
  destruct (before ++ prev :: next :: after) as [|first rest] eqn:Hrow.
  { by destruct before. }
  by apply (fill_row_fails cat s prev next after Hgap before).
Qed.

(** The first gap of a side to fail decides the error of the side. *)
Lemma fill_row_first_failure (cat : FillerCatalog) (s : Side) (prev next : Placed)
    (after : list Placed) (e : LayoutError) :
  (∀ g, fill_gap cat s g prev next = Err e) →
  ∀ before g first rest rest',
    first :: rest = before ++ [prev] →
    first :: rest' = before ++ prev :: next :: after →
    is_ok (fill_row cat s g first rest) = true →
    fill_row cat s g first rest' = Err e.
Proof.
  intros Hgap. induction before as [|b before IH]; intros g first rest rest'; simpl.
  - intros [= -> ->] [= ->] _. simpl. by rewrite Hgap.
  - intros [= -> ->] [= ->].
    destruct before as [|x before]; simpl.
    + destruct (fill_gap cat s g b prev) as [cells|e']; simpl; [|done].
      intros _. by rewrite Hgap.
    + destruct (fill_gap cat s g b x) as [cells|e']; simpl; [|done].
      intros Hok.
      rewrite (IH (S g) x (before ++ [prev]) (before ++ prev :: next :: after));
        try done.
      simpl in Hok. by destruct (fill_row cat s (S g) x (before ++ [prev])).
Qed.

Lemma fill_side_first_failure (cat : FillerCatalog) (s : Side) (prev next : Placed)
    (e : LayoutError) :
  (∀ g, fill_gap cat s g prev next = Err e) →
  ∀ before after,
    is_ok (fill_side cat s (before ++ [prev])) = true →
    fill_side cat s (before ++ prev :: next :: after) = Err e.
Proof.
  intros Hgap before after. unfold fill_side.
  destruct (before ++ [prev]) as [|first rest] eqn:Hrow; [by destruct before|].
  destruct (before ++ prev :: next :: after) as [|first' rest'] eqn:Hrow';
    [by destruct before|].
  assert (first' = first) as ->.
  { destruct before; simpl in *; congruence. }
  by apply (fill_row_first_failure cat s prev next after e Hgap before).
Qed.

Lemma valid_fill_drawn (ws l : list Z) : valid_fill ws l → drawn_from ws l.
Proof. intros Hl. eapply Forall_impl; [exact Hl|]. by intros w [? _]. Qed.

Lemma drawn_valid_fill (ws l : list Z) :
  Forall (λ w, 0 < w) ws → drawn_from ws l → valid_fill ws l.
Proof.
  intros Hpos Hl. eapply Forall_impl; [exact Hl|]. intros w Hw. split; [done|].
  by apply (proj1 (Forall_forall _ _) Hpos).
Qed.

Lemma fill_exact_None_not_expressible (ws : list Z) (r : Z) :
  Forall (λ w, 0 < w) ws → fill_exact ws r = None → ¬ expressible ws r.
Proof.
  intros Hpos Hnone (l & Hl & Hsum).
  by apply (fill_exact_complete ws r Hnone l (drawn_valid_fill ws l Hpos Hl)).
Qed.

Lemma not_expressible_fill_exact (ws : list Z) (r : Z) :
  ¬ expressible ws r → fill_exact ws r = None.
Proof.
  intros Hno. destruct (fill_exact ws r) as [l|] eqn:Hl; [|done].
  apply fill_exact_sound in Hl as [Hvalid Hsum].
  destruct Hno. exists l. split; [by apply valid_fill_drawn|done].
Qed.

(** C2.  A positive gap whose remaining length (after the separator, when
    one is mandated and fits) is no sum of catalog widths makes the per-gap
    algorithm fail with [UnfillableGapError], naming the side and the bounds
    of the gap; the generator then returns no row for a side that contains
    the gap, and fails with that very error when the gaps before it on the
    side are filled. *)
Theorem unfillable_gap_fails (cat : FillerCatalog) (s : Side) (g : nat)
    (prev next : Placed) :
  0 < p_position next - p_end prev →
  (separator_required prev next = true →
     min_separator_width cat ≤ p_position next - p_end prev) →
  ¬ expressible (filler_widths cat) (remaining_length cat prev next) →
  fill_gap cat s g prev next
    = Err (UnfillableGapError s (p_end prev) (p_position next))
  ∧ (∀ before after,
       is_ok (fill_side cat s (before ++ prev :: next :: after)) = false)
  ∧ (∀ before after,
       is_ok (fill_side cat s (before ++ [prev])) = true →
       fill_side cat s (before ++ prev :: next :: after)
       = Err (UnfillableGapError s (p_end prev) (p_position next))).
Proof.
  intros Hgap Hsep Hno.
  assert (∀ g', fill_gap cat s g' prev next
                = Err (UnfillableGapError s (p_end prev) (p_position next))) as Hfail.
  { intros g'. unfold fill_gap.
    rewrite (proj2 (Z.eqb_neq _ _)) by lia.
    rewrite (proj2 (Z.ltb_ge _ _)) by lia.
    unfold remaining_length in Hno.
    destruct (separator_required prev next).
    - rewrite (proj2 (Z.ltb_ge _ _)) by (by apply Hsep).
      cbn. replace (min_separator_width cat + 0) with (min_separator_width cat) by lia.
      by rewrite (not_expressible_fill_exact _ _ Hno).
    - cbn. replace (p_position next - p_end prev - 0)
        with (p_position next - p_end prev) in * by lia.
      by rewrite (not_expressible_fill_exact _ _ Hno). }
  split; [apply Hfail|]. split.
  - apply fill_side_fails. intros g'. by rewrite Hfail.
  - by apply fill_side_first_failure.
Qed.

(** C4.  Between two adjacent placed instances, a negative gap makes the
    per-gap algorithm fail with [LayoutOverflowError] naming the two
    instances; the generator then returns no row for the side, and fails
    with that very error when the gaps before it are filled.  A gap of
    exactly 0 yields no cell at all. *)
Theorem negative_gap_overflows (cat : FillerCatalog) (s : Side) (g : nat)
    (prev next : Placed) :
  (p_position next - p_end prev < 0 →
     fill_gap cat s g prev next
       = Err (LayoutOverflowError (p_name prev) (p_name next))
     ∧ (∀ before after,
          is_ok (fill_side cat s (before ++ prev :: next :: after)) = false)
     ∧ (∀ before after,
          is_ok (fill_side cat s (before ++ [prev])) = true →
          fill_side cat s (before ++ prev :: next :: after)
          = Err (LayoutOverflowError (p_name prev) (p_name next))))
  ∧ (p_position next - p_end prev = 0 → fill_gap cat s g prev next = Ok []).
Proof.
  split.
  - intros Hneg.
    assert (∀ g', fill_gap cat s g' prev next
                  = Err (LayoutOverflowError (p_name prev) (p_name next))) as Hfail.
    { intros g'. unfold fill_gap.
      rewrite (proj2 (Z.eqb_neq _ _)) by lia.
      by rewrite (proj2 (Z.ltb_lt _ _)) by lia. }
    split; [apply Hfail|]. split.
    + apply fill_side_fails. intros g'. by rewrite Hfail.
    + by apply fill_side_first_failure.
  - intros Hzero. unfold fill_gap. by rewrite (proj2 (Z.eqb_eq _ _)) by lia.
Qed.

(** The generator fills every gap the catalog can fill. *)
Lemma expressible_gap_filled (cat : FillerCatalog) (s : Side) (g : nat)
    (prev next : Placed) :
  catalog_wf cat →
  0 < p_position next - p_end prev →
  (separator_required prev next = true →
     min_separator_width cat ≤ p_position next - p_end prev) →
  expressible (filler_widths cat) (remaining_length cat prev next) →
  is_ok (fill_gap cat s g prev next) = true.
Proof.
  intros Hwf Hgap Hsep (l & Hl & Hsum). unfold fill_gap.
  rewrite (proj2 (Z.eqb_neq _ _)) by lia.
  rewrite (proj2 (Z.ltb_ge _ _)) by lia.
  unfold remaining_length in Hsum.
  assert (∀ r, sumZ l = r → fill_exact (filler_widths cat) r ≠ None) as Hfill.
  { intros r Hr Hnone.
    apply (fill_exact_complete _ _ Hnone l); [|done].
    by apply drawn_valid_fill. }
  destruct (separator_required prev next).
  - rewrite (proj2 (Z.ltb_ge _ _)) by (by apply Hsep). cbn.
    replace (min_separator_width cat + 0) with (min_separator_width cat) by lia.
    specialize (Hfill _ Hsum). by destruct (fill_exact _ _).
  - cbn. specialize (Hfill _ Hsum).
    replace (p_position next - p_end prev - 0)
      with (p_position next - p_end prev) in * by lia.
    by destruct (fill_exact _ _).
Qed.


(** ** The engine on the examples *)

Import Examples.


Lemma unfillable_gap_fails_witness :
  fill_gap catalog_30_7 BottomSide 1 (placed_pad "P1" 0) (placed_pad "P2" 70)
    = Err (UnfillableGapError BottomSide 30 70)
  ∧ (∀ before after,
       is_ok (fill_side catalog_30_7 BottomSide
                (before ++ placed_pad "P1" 0 :: placed_pad "P2" 70 :: after))
       = false)
  ∧ (∀ before after,
       is_ok (fill_side catalog_30_7 BottomSide (before ++ [placed_pad "P1" 0]))
       = true →
       fill_side catalog_30_7 BottomSide
         (before ++ placed_pad "P1" 0 :: placed_pad "P2" 70 :: after)
       = Err (UnfillableGapError BottomSide 30 70)).
Proof.
  apply (unfillable_gap_fails catalog_30_7 BottomSide 1
           (placed_pad "P1" 0) (placed_pad "P2" 70)).
  - vm_compute. reflexivity.
  - intros Hsep. vm_compute in Hsep. discriminate.
  - apply fill_exact_None_not_expressible.
    + repeat constructor.
    + vm_compute. reflexivity.
Defined.

(** C3.  On a side of usable length 100 with two pads of width 30 at its two
    ends and the catalog [20; 10; 5], the generator fills the 40-unit gap
    with fillers whose widths sum to exactly 40 (two of 20); the filled row
    runs from corner to corner with every cell starting where the one before
    ends, and what lies between the corners sums to 100. *)
Theorem gap_fill_example :
  usable_length ring BottomSide = 100
  ∧ fill_side catalog_20_10_5 BottomSide bottom_row = Ok bottom_row_filled
  ∧ total_width (List.filter is_filler_cell bottom_row_filled) = 40
  ∧ contiguous (- corner_size ring) bottom_row_filled
  ∧ total_width (List.filter (λ p, negb (is_corner p)) bottom_row_filled) = 100.
Proof.
  split; [reflexivity|]. split; [vm_compute; reflexivity|].
  split; [reflexivity|]. split; [|reflexivity].
  simpl. unfold p_end. simpl. repeat split; reflexivity.
Qed.

Lemma negative_gap_overflows_witness :
  (fill_gap catalog_20_10_5 BottomSide 1 (placed_pad "P1" 0) overlapping_pad
     = Err (LayoutOverflowError "P1" "P2")
   ∧ (∀ before after,
        is_ok (fill_side catalog_20_10_5 BottomSide
                 (before ++ placed_pad "P1" 0 :: overlapping_pad :: after))
        = false)
   ∧ (∀ before after,
        is_ok (fill_side catalog_20_10_5 BottomSide
                 (before ++ [placed_pad "P1" 0])) = true →
        fill_side catalog_20_10_5 BottomSide
          (before ++ placed_pad "P1" 0 :: overlapping_pad :: after)
        = Err (LayoutOverflowError "P1" "P2")))
  ∧ fill_gap catalog_20_10_5 BottomSide 1 (placed_pad "P1" 0) abutting_pad = Ok [].
Proof.
  split.
  - apply (negative_gap_overflows catalog_20_10_5 BottomSide 1
             (placed_pad "P1" 0) overlapping_pad).
    vm_compute. reflexivity.
  - apply (negative_gap_overflows catalog_20_10_5 BottomSide 1
             (placed_pad "P1" 0) abutting_pad).
    vm_compute. reflexivity.
Defined.

Lemma not_dangling_by_check (l : list Instance) :
  check_references l l = Ok () → ¬ dangling l.
Proof.
  intros Hok Hd. destruct (check_references_dangling l l Hd) as (i & r & Herr & _).
  congruence.
Qed.

Lemma cycle_AB_chain : chain cycle_AB "A" ["B"] "A".
Proof.
  split.
  - exists (pad "A" (Relative "B" 10)), 10. split; [|done].
    apply list_elem_of_In. simpl. tauto.
  - exists (pad "B" (Relative "A" 10)), 10. split; [|done].
    apply list_elem_of_In. simpl. tauto.
Qed.

Lemma cycle_and_dangling_chain : chain cycle_and_dangling "A" ["B"] "A".
Proof.
  split.
  - exists (pad "A" (Relative "B" 10)), 10. split; [|done].
    apply list_elem_of_In. simpl. tauto.
  - exists (pad "B" (Relative "A" 10)), 10. split; [|done].
    apply list_elem_of_In. simpl. tauto.
Qed.

Lemma cycle_and_dangling_dangling : dangling cycle_and_dangling.
Proof.
  exists (pad "C" (Relative "Z" 10)), "Z", 10. split; [|split; [done|]].
  - apply list_elem_of_In. simpl. tauto.
  - intros Hin. apply list_elem_of_In in Hin. simpl in Hin.
    destruct Hin as [H|[H|[H|[]]]]; discriminate.
Qed.

Lemma dangling_only_dangling : dangling dangling_only.
Proof.
  exists (pad "C" (Relative "Z" 10)), "Z", 10. split; [|split; [done|]].
  - apply list_elem_of_In. simpl. tauto.
  - intros Hin. apply list_elem_of_In in Hin. simpl in Hin.
    destruct Hin as [H|[H|[]]]; discriminate.
Qed.

Lemma dangling_only_edge (a b : string) :
  ref_edge dangling_only a b → a = "C" ∧ b = "Z".
Proof.
  intros (i & d & Hi & Hname & Hpos).
  apply list_elem_of_In in Hi. simpl in Hi.
  destruct Hi as [<-|[<-|[]]]; simpl in *; [discriminate|].
  split; congruence.
Qed.

Lemma dangling_only_acyclic : ¬ cyclic dangling_only.
Proof.
  intros (a & via & Hchain). destruct via as [|b via]; simpl in Hchain.
  - apply dangling_only_edge in Hchain as [-> ?]. discriminate.
  - destruct Hchain as [Hab Hrest].
    apply dangling_only_edge in Hab as [-> ->].
    destruct via as [|c via]; simpl in Hrest.
    + apply dangling_only_edge in Hrest as [? _]. discriminate.
    + destruct Hrest as [Hzc _].
      apply dangling_only_edge in Hzc as [? _]. discriminate.
Qed.

Lemma resolver_errors_witness :
  (∃ i r, resolve dangling_only = Err (UnresolvedReferenceError i r)
          ∧ r ∉ map name dangling_only)
  ∧ (∃ stuck, resolve cycle_AB = Err (CyclicReferenceError stuck)
              ∧ ∀ n, n ∈ ["A"; "B"] → n ∈ stuck).
Proof.
  split.
  - exact (proj1 (resolver_errors dangling_only)
             dangling_only_dangling dangling_only_acyclic).
  - apply (proj2 (resolver_errors cycle_AB)).
    + apply NoDup_cons. split.
      * intros Hin. apply list_elem_of_In in Hin. simpl in Hin.
        destruct Hin as [H|[]]. discriminate.
      * apply NoDup_singleton.
    + apply not_dangling_by_check. vm_compute. reflexivity.
    + exact cycle_AB_chain.
Defined.

(** A graph with a cycle and a reference to nothing: the claim asks for
    [CyclicReferenceError] because of the one and for
    [UnresolvedReferenceError] because of the other, and no resolver,
    whatever it does, ends one run with both. *)
Lemma cycle_and_dangling_ask_for_two_errors :
  cyclic cycle_and_dangling
  ∧ dangling cycle_and_dangling
  ∧ ∀ resolver : list Instance → result LayoutError (list Instance),
      ¬ ((∃ stuck, resolver cycle_and_dangling = Err (CyclicReferenceError stuck))
         ∧ (∃ i r, resolver cycle_and_dangling
                   = Err (UnresolvedReferenceError i r))).
Proof.
  split; [exists "A", ["B"]; exact cycle_and_dangling_chain|].
  split; [exact cycle_and_dangling_dangling|].
  intros resolver [[stuck Hc] (i & r & Hu)]. congruence.
Qed.

End LayoutProofs.

(** * The tool and the engine together *)

Module RunProofs.
Import Tool Layout Visualize Examples MoreExamples.





Section WithCollaborators.
Context `{C : Collaborators exn}.



End WithCollaborators.




End RunProofs.

(** * Part III, verified *)

Module VisualizeProofs.
Import Tool Visualize ToolProofs.

(** ** Relative positions *)

Lemma value_nested_ind (P : value → Prop) :
  (∀ z, P (VNum z)) → (∀ s, P (VStr s)) →
  (∀ l, Forall P l → P (VList l)) → ∀ v, P v.
Proof.
  intros Hn Hs Hl.
  exact (fix go (v : value) : P v :=
           match v with
           | VNum z => Hn z
           | VStr s => Hs s
           | VList l =>
               Hl l ((fix all (l : list value) : Forall P l :=
                        match l with
                        | [] => @List.Forall_nil _ P
                        | x :: l' => @List.Forall_cons _ P x l' (go x) (all l')
                        end) l)
           end).
Qed.

Lemma py_repr_list (l : list value) :
  py_repr (VList l) = "[" +:+ repr_items l +:+ "]".
Proof. reflexivity. Qed.

Lemma mentions_underscore_list (l : list value) :
  mentions_underscore (VList l) = existsb mentions_underscore l.
Proof. simpl. induction l as [|x l IH]; [done|]. simpl. by rewrite IH. Qed.

Lemma repr_items_underscore (l : list value) :
  Forall (λ v, str_contains "_" (py_repr v) = mentions_underscore v) l →
  str_contains "_" (repr_items l) = existsb mentions_underscore l.
Proof.
  induction 1 as [|x l Hx Hl IH]; [done|].
  destruct l as [|y l].
  - simpl. rewrite Hx. by rewrite orb_false_r.
  - change (repr_items (x :: y :: l))
      with (py_repr x +:+ ", " +:+ repr_items (y :: l)).
    rewrite !str_contains_underscore_app, Hx, IH.
    change (existsb mentions_underscore (x :: y :: l))
      with (mentions_underscore x || existsb mentions_underscore (y :: l)).
    done.
Qed.

Lemma py_repr_underscore (v : value) :
  str_contains "_" (py_repr v) = mentions_underscore v.
Proof.
  induction v as [z|s|l IH] using value_nested_ind.
  - apply pretty_Z_no_underscore.
  - change (py_repr (VStr s)) with ("'" +:+ s +:+ "'").
    rewrite !str_contains_underscore_app.
    change (str_contains "_" "'") with false.
    by rewrite orb_false_r.
  - rewrite py_repr_list, mentions_underscore_list.
    rewrite !str_contains_underscore_app, (repr_items_underscore l IH).
    change (str_contains "_" "[") with false.
    change (str_contains "_" "]") with false.
    by rewrite orb_false_r.
Qed.

(** X5. The test of line 378 on the printed position is a test on the
    position itself: an instance counts as relative exactly when some string
    inside its [position] (at any depth) holds an underscore.  Numbers,
    brackets, commas and quotes never make a position relative, and an
    instance without [position] is not relative. *)
Theorem relative_iff_underscore_in_a_string (inst : dict) :
  is_relative inst
  = from_option mentions_underscore false (inst !! "position").
Proof.
  unfold is_relative. destruct (inst !! "position") as [v|]; [|done].
  simpl. destruct v as [z|s|l]; [apply (py_repr_underscore (VNum z))|done|].
  apply (py_repr_underscore (VList l)).
Qed.

(** ** The ring configuration *)

Lemma set_default_cases {exn} (gen rc : dict) (k : string) :
  match set_default (exn:=exn) gen rc k with
  | Ok rc1 =>
      missing gen rc k = false ∧
      (∀ j, rc1 !! j = match rc !! j with
                       | Some v => Some v
                       | None => if decide (j = k) then gen !! k else None
                       end)
  | Err e => e = KeyError k ∧ missing gen rc k = true
  end.
Proof.
  unfold set_default, missing.
  destruct (rc !! k) as [w|] eqn:Hk.
  - split; [done|]. intros j. destruct (rc !! j) eqn:Hj; [done|].
    case_decide; congruence.
  - destruct (gen !! k) as [v|] eqn:Hg; [|done].
    split; [done|]. intros j.
    destruct (decide (j = k)) as [->|Hne].
    + by rewrite lookup_insert_eq, Hk.
    + rewrite lookup_insert_ne by done. by destruct (rc !! j).
Qed.

Lemma defaults_from_cases {exn} (gen : dict) (keys : list string) (rc : dict) :
  match defaults_from (exn:=exn) gen rc keys with
  | Ok rc' =>
      List.find (missing gen rc) keys = None ∧
      (∀ j, rc' !! j = match rc !! j with
                       | Some v => Some v
                       | None => if decide (j ∈ keys) then gen !! j else None
                       end)
  | Err e => ∃ k, e = KeyError k ∧ List.find (missing gen rc) keys = Some k
  end.
Proof.
  revert rc. induction keys as [|k keys IH]; intros rc; simpl.
  - split; [done|]. intros j. destruct (rc !! j); [done|].
    destruct (decide (j ∈ [])) as [Hin|]; [by apply elem_of_nil in Hin|done].
  - pose proof (set_default_cases (exn:=exn) gen rc k) as Hk.
    destruct (set_default gen rc k) as [rc1|e]; simpl.
    + destruct Hk as [Hmiss H1]. rewrite Hmiss.
      assert (∀ j, missing gen rc1 j = missing gen rc j) as Hsame.
      { intros j. unfold missing. rewrite H1.
        destruct (rc !! j) eqn:Hj; [done|].
        destruct (decide (j = k)) as [->|]; [|done].
        unfold missing in Hmiss. rewrite Hj in Hmiss.
        destruct (gen !! k); [done|]. done. }
      specialize (IH rc1).
      destruct (defaults_from gen rc1 keys) as [rc2|e].
      * destruct IH as [Hfind H2]. split.
        { rewrite <- Hfind. clear -Hsame. induction keys as [|a keys IHk]; [done|].
          simpl. by rewrite Hsame, IHk. }
        intros j. rewrite H2, H1.
        destruct (rc !! j) eqn:Hj; [done|].
        destruct (decide (j = k)) as [->|Hne].
        { unfold missing in Hmiss. rewrite Hj in Hmiss.
          destruct (gen !! k) eqn:Hg; [|done].
          destruct (decide (k ∈ k :: keys)) as [_|Hn]; [done|].
          destruct Hn. apply elem_of_cons. by left. }
        destruct (decide (j ∈ keys)) as [Hin|Hnin];
          destruct (decide (j ∈ k :: keys)) as [Hin'|Hnin']; try done.
        { destruct Hnin'. apply elem_of_cons. by right. }
        { apply elem_of_cons in Hin'. tauto. }
      * destruct IH as (k' & -> & Hfind). exists k'. split; [done|].
        rewrite <- Hfind. clear -Hsame. induction keys as [|a keys IHk]; [done|].
        simpl. by rewrite Hsame, IHk.
    + destruct Hk as [-> Hmiss]. rewrite Hmiss. by exists k.
Qed.

Lemma merge_key_lookup (k : string) (top rc : dict) (j : string) :
  merge_key k top rc !! j
  = match rc !! j with
    | Some v => Some v
    | None => if decide (j = k) then top !! k else None
    end.
Proof.
  unfold merge_key.
  destruct (top !! k) as [v|] eqn:Ht.
  - destruct (rc !! k) as [w|] eqn:Hk.
    + destruct (rc !! j) eqn:Hj; [done|]. case_decide; congruence.
    + destruct (decide (j = k)) as [->|Hne].
      * by rewrite lookup_insert_eq, Hk.
      * rewrite lookup_insert_ne by done. by destruct (rc !! j).
  - destruct (rc !! j) eqn:Hj; [done|]. by case_decide.
Qed.

Lemma merge_top_level_lookup (top rc : dict) (j : string) :
  merge_top_level top rc !! j
  = match rc !! j with
    | Some v => Some v
    | None =>
        if bool_decide (j = "library_name" ∨ j = "cell_name")
        then top !! j else None
    end.
Proof.
  unfold merge_top_level. rewrite !merge_key_lookup.
  destruct (rc !! j) eqn:Hj; [done|].
  destruct (decide (j = "library_name")) as [->|Hl].
  - rewrite bool_decide_eq_true_2 by (by left).
    destruct (top !! "library_name"); [done|]. done.
  - destruct (decide (j = "cell_name")) as [->|Hc].
    + by rewrite bool_decide_eq_true_2 by (by right).
    + rewrite bool_decide_eq_false_2; [done|]. intros [?|?]; done.
Qed.

Lemma configured_lookup {exn} (gen top rc rc' : dict) :
  defaults_from (exn:=exn) gen (merge_top_level top rc) default_keys = Ok rc' →
  ∀ j, rc' !! j = configured gen top rc j.
Proof.
  intros Hrun j.
  pose proof (defaults_from_cases (exn:=exn) gen default_keys
                (merge_top_level top rc)) as H.
  rewrite Hrun in H. destruct H as [_ H]. rewrite H, merge_top_level_lookup.
  unfold configured. destruct (rc !! j); [done|].
  destruct (if bool_decide (j = "library_name" ∨ j = "cell_name")
            then top !! j else None); [done|].
  destruct (decide (j ∈ default_keys)).
  - by rewrite bool_decide_eq_true_2.
  - by rewrite bool_decide_eq_false_2.
Qed.

(** X1. Lines 353-375 together: whenever the merge of the top-level names
    followed by the six defaults succeeds, every member of the resulting ring
    configuration is the caller's own [ring_config] value if there is one,
    else the top-level value for [library_name] and [cell_name], else the
    generator's value for the six defaulted keys, and is absent otherwise.
    So [cell_name] is never defaulted and no other top-level member gets
    in. *)
Theorem ring_config_precedence {exn} (gen top rc rc' : dict) :
  apply_defaults (exn:=exn) gen (merge_top_level top rc) = Ok rc' →
  ∀ j, rc' !! j = configured gen top rc j.
Proof. rewrite apply_defaults_unfold. apply configured_lookup. Qed.

(** X2. The six defaults succeed exactly when no defaulted key is missing
    from both the ring configuration and the generator's table; otherwise
    they stop with [KeyError] on the first such key, in the order of the six
    statements. *)
Theorem defaults_fail_on_first_missing_key {exn} (gen rc : dict) :
  match apply_defaults (exn:=exn) gen rc with
  | Ok _ => first_missing gen rc = None
  | Err e => ∃ k, first_missing gen rc = Some k ∧ e = KeyError k
  end.
Proof.
  rewrite apply_defaults_unfold.
  pose proof (defaults_from_cases (exn:=exn) gen default_keys rc) as H.
  destruct (defaults_from gen rc default_keys) as [rc'|e].
  - apply H.
  - destruct H as (k & -> & Hk). by exists k.
Qed.

Lemma find_none_all {A} (f : A → bool) (l : list A) (x : A) :
  List.find f l = None → x ∈ l → f x = false.
Proof.
  intros Hf Hx. apply list_elem_of_In in Hx.
  exact (List.find_none f l Hf x Hx).
Qed.

Lemma defaults_from_present {exn} (gen : dict) (keys : list string) (rc : dict) :
  (∀ k, k ∈ keys → is_Some (rc !! k)) →
  defaults_from (exn:=exn) gen rc keys = Ok rc.
Proof.
  induction keys as [|k keys IH]; intros Hall; [done|]. simpl.
  unfold set_default. destruct (Hall k) as [v ->]; [apply elem_of_cons; by left|].
  simpl. apply IH. intros j Hj. apply Hall, elem_of_cons. by right.
Qed.

Lemma defaults_from_defined {exn} (gen : dict) (keys : list string) (rc rc' : dict) :
  defaults_from (exn:=exn) gen rc keys = Ok rc' →
  ∀ k, k ∈ keys → is_Some (rc' !! k).
Proof.
  intros Hrun k Hk.
  pose proof (defaults_from_cases (exn:=exn) gen keys rc) as H.
  rewrite Hrun in H. destruct H as [Hfind H]. rewrite H.
  destruct (rc !! k) eqn:Hr; [by eexists|].
  rewrite decide_True by done.
  pose proof (find_none_all _ _ k Hfind Hk) as Hm. unfold missing in Hm.
  rewrite Hr in Hm. destruct (gen !! k); [by eexists|done].
Qed.

(** X3. After the defaults have succeeded the ring configuration defines
    all six keys, whatever the generator's table was, and applying the
    defaults again (with any table, even an empty one) changes nothing. *)
Theorem defaults_idempotent {exn} (gen gen' rc rc' : dict) :
  apply_defaults (exn:=exn) gen rc = Ok rc' →
  (∀ k, k ∈ default_keys → is_Some (rc' !! k))
  ∧ apply_defaults (exn:=exn) gen' rc' = Ok rc'.
Proof.
  rewrite !apply_defaults_unfold. intros Hrun.
  pose proof (defaults_from_defined gen default_keys rc rc' Hrun) as Hdef.
  split; [exact Hdef|]. by apply defaults_from_present.
Qed.

Lemma filter_cons_replicate {A} (f : A → bool) (x : A) (l : list A) :
  List.filter f (x :: l) = replicate (Nat.b2n (f x)) x ++ List.filter f l.
Proof. simpl. by destruct (f x). Qed.

Section WithCollaborators.
Context `{C : Collaborators exn}.

(** X4. When lines 345-379 succeed, validation has passed, the ring
    configuration is the one of X1 computed with the generator's table as it
    stood for the merged configuration, it defines the six defaulted keys,
    and the instances are the input's own when none is relative; otherwise
    they are what the resolver returned for the input's instances and the
    completed ring configuration. *)
Theorem prepare_succeeds_with (config : IntentGraph) (rc' : dict)
    (instances : list dict) :
  prepare config = Ok (rc', instances) →
  let rc := default ∅ (ig_ring_config config) in
  let top := ig_top config in
  validate_config config = true
  ∧ (∀ j, rc' !! j
          = configured (generator_config (merge_top_level top rc)) top rc j)
  ∧ (∀ k, k ∈ default_keys → is_Some (rc' !! k))
  ∧ (if existsb is_relative (instances_of config)
     then convert_relative_to_absolute (instances_of config) rc' = Ok instances
     else instances = instances_of config).
Proof.
  intros Hrun rc top. unfold prepare in Hrun.
  destruct (validate_config config); [|done]. simpl in Hrun.
  fold rc top in Hrun.
  destruct (apply_defaults (generator_config (merge_top_level top rc))
              (merge_top_level top rc)) as [rc1|e] eqn:Hdef; [|done].
  simpl in Hrun. unfold resolve_positions in Hrun. fold (instances_of config) in Hrun.
  assert (rc1 = rc') as ->.
  { destruct (existsb is_relative (instances_of config)).
    - destruct (convert_relative_to_absolute (instances_of config) rc1);
        simpl in Hrun; congruence.
    - simpl in Hrun. congruence. }
  split; [done|].
  rewrite apply_defaults_unfold in Hdef.
  split; [exact (configured_lookup (exn:=exn) _ _ _ _ Hdef)|].
  split; [exact (defaults_from_defined (exn:=exn) _ _ _ _ Hdef)|].
  destruct (existsb is_relative (instances_of config)).
  - destruct (convert_relative_to_absolute (instances_of config) rc');
      simpl in Hrun; congruence.
  - simpl in Hrun. congruence.
Qed.

Lemma four_lists_copies (instances : list dict) :
  outer_pads_of instances ++ corners_of instances
    ++ List.filter existing instances ++ inner_pads_of instances
  ≡ₚ instances ≫= (λ c, replicate (copies c) c).
Proof.
  unfold outer_pads_of, corners_of, inner_pads_of.
  induction instances as [|x l IH]; [done|].
  rewrite !filter_cons_replicate.
  change ((x :: l) ≫= (λ c, replicate (copies c) c))
    with (replicate (copies x) x ++ (l ≫= (λ c, replicate (copies c) c))).
  rewrite <- IH. unfold copies.
  destruct (get_is x "type" "pad"), (get_is x "type" "corner"),
    (existing x), (get_is x "type" "inner_pad"); simpl;
    rewrite <- ?Permutation_middle; done.
Qed.

(** X6. With a filler or separator among the instances, the component
    list holds every instance once for its type ([pad], [corner] or
    [inner_pad]) and once more if it counts as a filler or separator, up to
    order, and nothing else: an instance of no such kind is dropped, a pad or
    corner whose device the classifier takes for a filler or separator comes
    twice. *)
Theorem existing_fillers_copies (instances : list dict) :
  existsb existing instances = true →
  ∃ out, assemble_components instances = Ok out
    ∧ out ≡ₚ instances ≫= (λ c, replicate (copies c) c)
    ∧ ∀ c, c ∈ out ↔ c ∈ instances ∧ copies c ≠ 0%nat.
Proof.
  intros Hex. rewrite assemble_components_cases, Hex.
  eexists. split; [done|]. split; [apply four_lists_copies|].
  intros c. rewrite four_lists_copies, list_elem_of_bind. split.
  - intros (y & Hc & Hy). apply elem_of_replicate in Hc as [-> Hn]. done.
  - intros [Hc Hn]. exists c. split; [|done]. by apply elem_of_replicate.
Qed.

End WithCollaborators.

(** ** The tool on concrete inputs *)

Import Examples MoreExamples.

Lemma ring_config_precedence_witness :
  apply_defaults (exn:=unit) default_table
    (merge_top_level named_top small_ring_config) = Ok named_ring_config
  ∧ ∀ j, named_ring_config !! j
         = configured default_table named_top small_ring_config j.
Proof.
  assert (apply_defaults (exn:=unit) default_table
            (merge_top_level named_top small_ring_config)
          = Ok named_ring_config) as Hrun by (vm_compute; reflexivity).
  split; [exact Hrun|].
  exact (ring_config_precedence (exn:=unit) _ _ _ _ Hrun).
Defined.

Lemma defaults_idempotent_witness :
  apply_defaults (exn:=unit) default_table ∅ = Ok default_table
  ∧ (∀ k, k ∈ default_keys → is_Some (default_table !! k))
  ∧ apply_defaults (exn:=unit) ∅ default_table = Ok default_table.
Proof.
  assert (apply_defaults (exn:=unit) default_table ∅ = Ok default_table)
    as Hrun by (vm_compute; reflexivity).
  split; [exact Hrun|].
  exact (defaults_idempotent (exn:=unit) default_table ∅ ∅ default_table Hrun).
Defined.

Lemma prepare_succeeds_with_witness :
  prepare (H := example_collaborators) graph_with_filler
    = Ok (prepared_ring_config, instances_of graph_with_filler)
  ∧ validate_config (Collaborators := example_collaborators) graph_with_filler
    = true
  ∧ (∀ j, prepared_ring_config !! j
          = configured
              (generator_config (Collaborators := example_collaborators)
                 (merge_top_level (ig_top graph_with_filler)
                    (default ∅ (ig_ring_config graph_with_filler))))
              (ig_top graph_with_filler)
              (default ∅ (ig_ring_config graph_with_filler)) j)
  ∧ (∀ k, k ∈ default_keys → is_Some (prepared_ring_config !! k))
  ∧ (if existsb is_relative (instances_of graph_with_filler)
     then convert_relative_to_absolute (Collaborators := example_collaborators)
            (instances_of graph_with_filler) prepared_ring_config
          = Ok (instances_of graph_with_filler)
     else instances_of graph_with_filler = instances_of graph_with_filler).
Proof.
  assert (prepare (H := example_collaborators) graph_with_filler
          = Ok (prepared_ring_config, instances_of graph_with_filler)) as Hprep
    by (vm_compute; reflexivity).
  split; [exact Hprep|].
  exact (prepare_succeeds_with (C := example_collaborators)
           graph_with_filler _ _ Hprep).
Defined.

Lemma existing_fillers_copies_witness :
  existsb (existing (H := example_collaborators)) instances_with_filler_pad
    = true
  ∧ ∃ out,
      assemble_components (H := example_collaborators) instances_with_filler_pad
        = Ok out
      ∧ out ≡ₚ instances_with_filler_pad
                ≫= (λ c, replicate (copies (H := example_collaborators) c) c)
      ∧ ∀ c, c ∈ out ↔ c ∈ instances_with_filler_pad
                        ∧ copies (H := example_collaborators) c ≠ 0%nat.
Proof.
  assert (existsb (existing (H := example_collaborators))
            instances_with_filler_pad = true) as Hex
    by (vm_compute; reflexivity).
  split; [exact Hex|].
  exact (existing_fillers_copies (C := example_collaborators) _ Hex).
Defined.

End VisualizeProofs.

Module SchematicProofs.
Import Tool Schematic.

Lemma value_eqb_str (s : string) (v : value) :
  value_eqb (VStr s) v = true ↔ v = VStr s.
Proof.
  destruct v as [z|t|l]; simpl; try (split; [done|congruence]).
  rewrite String.eqb_eq. split; congruence.
Qed.

Lemma existsb_value_eqb_str (s : string) (ss : list string) :
  existsb (value_eqb (VStr s)) (map VStr ss) = bool_decide (s ∈ ss).
Proof.
  induction ss as [|t ss IH].
  - symmetry. apply bool_decide_eq_false_2, not_elem_of_nil.
  - cbn [map existsb value_eqb]. rewrite IH.
    destruct (String.eqb s t) eqn:Heq.
    + apply String.eqb_eq in Heq as ->. symmetry.
      apply bool_decide_eq_true_2, elem_of_cons. by left.
    + apply String.eqb_neq in Heq. rewrite orb_false_l.
      apply bool_decide_ext. rewrite elem_of_cons. tauto.
Qed.

Lemma mapM_as_str_map (ss : list string) : mapM as_str (map VStr ss) = Some ss.
Proof. apply mapM_Some. induction ss; constructor; done. Qed.

Lemma mapM_as_str_inv (l : list value) (ss : list string) :
  mapM as_str l = Some ss → l = map VStr ss.
Proof.
  intros H%mapM_Some. induction H as [|v s l ss Hv _ IH]; [done|].
  simpl. rewrite IH. destruct v; simplify_eq/=. done.
Qed.

Lemma set_add_string (ss : list string) (s : string) :
  set_add (map VStr ss) (VStr s)
  = Ok (map VStr (if bool_decide (s ∈ ss) then ss else ss ++ [s])).
Proof.
  unfold set_add. rewrite existsb_value_eqb_str.
  destruct (bool_decide (s ∈ ss)); [done|]. by rewrite map_app.
Qed.

(** The loop on a list whose devices are all strings. *)
Lemma add_devices_strings (items : list item) :
  devices_are_strings items →
  ∀ ss, NoDup ss →
  ∃ ss', add_devices (map VStr ss) items = Ok (map VStr ss')
       ∧ NoDup ss' ∧ ∀ s, s ∈ ss' ↔ s ∈ ss ∨ device_in items s.
Proof.
  induction items as [|it items IH]; intros Hstr ss Hnd.
  - exists ss. split; [done|]. split; [done|]. intros s. split; [by left|].
    intros [?|(d & Hd & _)]; [done|]. by apply elem_of_nil in Hd.
  - assert (devices_are_strings items) as Hrest.
    { intros d v Hd. apply Hstr, elem_of_cons. by right. }
    assert (∀ s, device_in (it :: items) s
                 ↔ (∃ d, it = Object d ∧ d !! "device" = Some (VStr s))
                   ∨ device_in items s) as Hin.
    { intros s. unfold device_in. split.
      - intros (d & [Heq|Hd]%elem_of_cons & Hs); [left; by exists d|].
        right. by exists d.
      - intros [(d & -> & Hs)|(d & Hd & Hs)]; exists d.
        + split; [apply elem_of_cons; by left|done].
        + split; [apply elem_of_cons; by right|done]. }
    simpl. destruct it as [d|v].
    + destruct (d !! "device") as [v|] eqn:Hdev.
      * destruct (Hstr d v) as [s ->]; [apply elem_of_cons; by left|done|].
        rewrite set_add_string. simpl.
        set (ss1 := if bool_decide (s ∈ ss) then ss else ss ++ [s]).
        assert (NoDup ss1) as Hnd1.
        { unfold ss1. case_bool_decide as Hs; [done|].
          apply NoDup_app. split; [done|]. split; [|apply NoDup_singleton].
          intros x Hx ->%list_elem_of_singleton. done. }
        assert (∀ x, x ∈ ss1 ↔ x ∈ ss ∨ x = s) as Hss1.
        { intros x. unfold ss1. case_bool_decide as Hs.
          - split; [by left|]. intros [?| ->]; done.
          - rewrite elem_of_app, list_elem_of_singleton. done. }
        destruct (IH Hrest ss1 Hnd1) as (ss' & -> & Hnd' & Hmem).
        exists ss'. split; [done|]. split; [done|].
        intros x. rewrite Hmem, Hss1, Hin. split.
        { intros [[?| ->]|?]; [by left| |by right; right].
          right. left. exists d. done. }
        { intros [?|[(d' & [= <-] & Hx)|?]]; [by left; left| |by right].
          left. right. congruence. }
      * simpl. destruct (IH Hrest ss Hnd) as (ss' & -> & Hnd' & Hmem).
        exists ss'. split; [done|]. split; [done|].
        intros x. rewrite Hmem, Hin. split.
        { intros [?|?]; [by left|by right; right]. }
        { intros [?|[(d' & [= <-] & Hx)|?]]; [by left|congruence|by right]. }
    + simpl. destruct (IH Hrest ss Hnd) as (ss' & -> & Hnd' & Hmem).
      exists ss'. split; [done|]. split; [done|].
      intros x. rewrite Hmem, Hin. split.
      { intros [?|?]; [by left|by right; right]. }
      { intros [?|[(d' & [=] & Hx)|?]]; [by left|by right]. }
Qed.

(** A set that ends up holding only strings was built from strings. *)
Lemma add_devices_only_strings (items : list item) (acc acc' : list value) :
  add_devices acc items = Ok acc' →
  is_Some (mapM as_str acc') →
  devices_are_strings items.
Proof.
  revert acc. induction items as [|it items IH]; intros acc Hrun Hall.
  - intros d v Hd. by apply elem_of_nil in Hd.
  - simpl in Hrun.
    assert (∀ acc1, add_devices acc1 items = Ok acc' →
                    devices_are_strings items ∧ is_Some (mapM as_str acc1))
      as Hstep.
    { intros acc1 Hrun1. split; [by eapply IH|].
      clear -Hrun1 Hall. revert acc1 Hrun1.
      induction items as [|it items IH]; intros acc1 Hrun1.
      - simpl in Hrun1. congruence.
      - simpl in Hrun1.
        destruct it as [d|v]; [|by apply IH].
        destruct (d !! "device") as [v|]; [|by apply IH].
        destruct v as [z|s|l]; simpl in Hrun1; [| |done].
        + destruct (existsb (value_eqb (VNum z)) acc1); [by apply IH|].
          apply IH in Hrun1 as [ss Hss]. apply mapM_Some in Hss.
          apply Forall2_app_inv_l in Hss as (ss1 & ss2 & H1 & _ & _).
          exists ss1. by apply mapM_Some.
        + destruct (existsb (value_eqb (VStr s)) acc1); [by apply IH|].
          apply IH in Hrun1 as [ss Hss]. apply mapM_Some in Hss.
          apply Forall2_app_inv_l in Hss as (ss1 & ss2 & H1 & _ & _).
          exists ss1. by apply mapM_Some. }
    assert (∀ d v, it = Object d → d !! "device" = Some v → ∃ s, v = VStr s)
      as Hhead.
    { intros d v -> Hdev. rewrite Hdev in Hrun.
      destruct v as [z|s|l]; simpl in Hrun; [|by eexists|done].
      destruct (existsb (value_eqb (VNum z)) acc) eqn:Hex.
      - apply Hstep in Hrun as [_ [ss Hss]].
        apply existsb_exists in Hex as (w & Hw & Heq).
        apply mapM_as_str_inv in Hss. subst acc.
        apply in_map_iff in Hw as (t & <- & _). done.
      - apply Hstep in Hrun as [_ [ss Hss]]. apply mapM_Some in Hss.
        apply Forall2_app_inv_l in Hss as (ss1 & ss2 & _ & H2 & _).
        inversion H2; simplify_eq/=. }
    assert (devices_are_strings items) as Hrest.
    { destruct it as [d|v]; [|by apply (Hstep acc)].
      destruct (d !! "device") as [v|]; [|by apply (Hstep acc)].
      destruct v as [z|s|l]; simpl in Hrun; [| |done].
      - by apply (Hstep (if existsb (value_eqb (VNum z)) acc
                         then acc else acc ++ [VNum z])).
      - by apply (Hstep (if existsb (value_eqb (VStr s)) acc
                         then acc else acc ++ [VStr s])). }
    intros d v [Heq|Hd]%elem_of_cons Hdev; [by eapply Hhead|by eapply Hrest].
Qed.

Lemma py_sorted_strings (ss : list string) :
  ∃ names, py_sorted (map VStr ss) = Ok (map VStr names)
         ∧ names ≡ₚ ss ∧ StronglySorted String.le names.
Proof.
  destruct ss as [|a [|b ss]].
  - exists []. repeat split; [done|constructor].
  - exists [a]. repeat split; [done|]. repeat constructor.
  - exists (merge_sort String.le (a :: b :: ss)).
    split; [|split; [apply merge_sort_Permutation|
                     apply (StronglySorted_merge_sort _)]].
    change (py_sorted (map VStr (a :: b :: ss)))
      with (match mapM as_str (map VStr (a :: b :: ss)),
                  mapM as_num (map VStr (a :: b :: ss)) with
            | Some ss, _ => Ok (E:=py_error) (map VStr (merge_sort String.le ss))
            | None, Some ns => Ok (map VNum (merge_sort Z.le ns))
            | None, None => Err TypeError
            end).
    by rewrite mapM_as_str_map.
Qed.

(** What [sorted] returns holds only strings iff its argument does. *)
Lemma py_sorted_keeps_kind (l names : list value) :
  py_sorted l = Ok names → is_Some (mapM as_str names) → is_Some (mapM as_str l).
Proof.
  destruct l as [|a [|b l]]; [intros [= <-]; done..|].
  change (py_sorted (a :: b :: l))
    with (match mapM as_str (a :: b :: l), mapM as_num (a :: b :: l) with
          | Some ss, _ => Ok (E:=py_error) (map VStr (merge_sort String.le ss))
          | None, Some ns => Ok (map VNum (merge_sort Z.le ns))
          | None, None => Err TypeError
          end).
  destruct (mapM as_str (a :: b :: l)) as [ss|] eqn:Hs; [by eexists|].
  destruct (mapM as_num (a :: b :: l)) as [ns|] eqn:Hn; [|done].
  intros [= <-] [ss Hss]. exfalso.
  apply mapM_Some in Hss.
  assert (length (merge_sort Z.le ns) = length ns) as Hlen
    by (by rewrite merge_sort_Permutation).
  apply mapM_Some, Forall2_length in Hn. simpl in Hn.
  destruct (merge_sort Z.le ns) as [|z zs]; [simpl in Hlen; lia|].
  inversion Hss; simplify_eq/=.
Qed.

Lemma filter_devices_are_strings (config_list : list item) :
  devices_are_strings (List.filter has_device config_list)
  ↔ devices_are_strings config_list.
Proof.
  unfold devices_are_strings. split; intros H d v Hd Hdev.
  - apply (H d v); [|done]. apply list_elem_of_In, filter_In.
    split; [by apply list_elem_of_In|]. simpl. rewrite Hdev.
    by apply bool_decide_eq_true_2.
  - apply (H d v); [|done].
    apply list_elem_of_In, filter_In in Hd as [Hd _]. by apply list_elem_of_In.
Qed.

Lemma filter_device_in (config_list : list item) (s : string) :
  device_in (List.filter has_device config_list) s ↔ device_in config_list s.
Proof.
  unfold device_in. split; intros (d & Hd & Hdev); exists d; (split; [|done]).
  - apply list_elem_of_In, filter_In in Hd as [Hd _]. by apply list_elem_of_In.
  - apply list_elem_of_In, filter_In.
    split; [by apply list_elem_of_In|]. simpl. rewrite Hdev.
    by apply bool_decide_eq_true_2.
Qed.

Lemma success_needs_strings (output_path : string) (config_list : list item) :
  is_ok (success_message output_path config_list) = true →
  devices_are_strings config_list.
Proof.
  unfold success_message. intros Hok. apply filter_devices_are_strings.
  destruct (add_devices [] (List.filter has_device config_list))
    as [device_types|e] eqn:Hadd; [|done].
  simpl in Hok. apply (add_devices_only_strings _ _ _ Hadd).
  destruct (nonempty device_types) eqn:Hne.
  - destruct (py_sorted device_types) as [names|e] eqn:Hsort; [|done].
    simpl in Hok. apply (py_sorted_keeps_kind _ _ Hsort).
    unfold py_join in Hok. destruct (mapM as_str names); [by eexists|done].
  - destruct device_types; [by eexists|done].
Qed.

Lemma strings_give_success (output_path : string) (config_list : list item) :
  devices_are_strings config_list →
  is_ok (success_message output_path config_list) = true.
Proof.
  unfold success_message. intros Hstr%filter_devices_are_strings.
  destruct (add_devices_strings _ Hstr [] (NoDup_nil_2))
    as (ss & Hadd & _ & _).
  change (map VStr []) with (@nil value) in Hadd. rewrite Hadd. simpl.
  destruct (nonempty (map VStr ss)); [|done].
  destruct (py_sorted_strings ss) as (names & -> & _ & _). simpl.
  unfold py_join. by rewrite mapM_as_str_map.
Qed.

(** X7. The statistics of lines 102-116 are produced exactly when the
    device of every object of [config_list] is a string.  A device that is a
    list cannot enter the set, and a number in the set makes [sorted] or
    [join] raise: the tool then reports that generating the schematic failed
    (line 119), although the schematic has been written. *)
Theorem statistics_need_string_devices (output_path : string)
    (config_list : list item) :
  is_ok (success_message output_path config_list) = true
  ↔ devices_are_strings config_list.
Proof.
  split; [apply success_needs_strings|apply strings_give_success].
Qed.

(** X8. When the statistics are produced, the message gives the number of
    objects of [config_list] that have a [device] member, and, unless there
    is none, the devices in ascending order, each once: the names listed
    are exactly the devices that occur. *)
Theorem statistics_report (output_path : string) (config_list : list item)
    (message : string) :
  success_message output_path config_list = Ok message →
  ∃ names,
    message = report output_path (length (List.filter has_device config_list))
                names
    ∧ StronglySorted String.le names ∧ NoDup names
    ∧ ∀ s, s ∈ names ↔ device_in config_list s.
Proof.
  intros Hrun.
  assert (devices_are_strings config_list) as Hstr.
  { apply (success_needs_strings output_path). by rewrite Hrun. }
  apply filter_devices_are_strings in Hstr.
  destruct (add_devices_strings _ Hstr [] (NoDup_nil_2))
    as (ss & Hadd & Hnd & Hmem).
  change (map VStr []) with (@nil value) in Hadd.
  unfold success_message in Hrun. rewrite Hadd in Hrun. simpl in Hrun.
  destruct (py_sorted_strings ss) as (names & Hsort & Hperm & Hsorted).
  exists names. split; [|split; [done|split]].
  - destruct ss as [|a ss].
    + apply Permutation_nil_r in Hperm as ->.
      change (nonempty (map VStr [])) with false in Hrun. cbv iota in Hrun.
      by injection Hrun as <-.
    + change (nonempty (map VStr (a :: ss))) with true in Hrun.
      cbv iota in Hrun. rewrite Hsort in Hrun. simpl in Hrun.
      unfold py_join in Hrun. rewrite mapM_as_str_map in Hrun.
      simpl in Hrun. injection Hrun as <-.
      unfold report. destruct names as [|n names]; [|done].
      by apply Permutation_nil_l in Hperm.
  - by rewrite Hperm.
  - intros s. rewrite Hperm, Hmem, filter_device_in. split; [|by right].
    intros [Hs|?]; [|done]. by apply elem_of_nil in Hs.
Qed.

Import Examples MoreExamples.

Lemma statistics_report_witness :
  success_message "output/ring_generated.il" config_list_example
    = Ok (report "output/ring_generated.il" 4
            ["PCORNER"; "PDDW16SDGZ"; "PVDD1DGZ"])
  ∧ ∃ names,
      report "output/ring_generated.il" 4 ["PCORNER"; "PDDW16SDGZ"; "PVDD1DGZ"]
      = report "output/ring_generated.il"
          (length (List.filter has_device config_list_example)) names
      ∧ StronglySorted String.le names ∧ NoDup names
      ∧ ∀ s, s ∈ names ↔ device_in config_list_example s.
Proof.
  assert (success_message "output/ring_generated.il" config_list_example
          = Ok (report "output/ring_generated.il" 4
                  ["PCORNER"; "PDDW16SDGZ"; "PVDD1DGZ"])) as Hrun
    by (vm_compute; reflexivity).
  split; [exact Hrun|].
  exact (statistics_report _ _ _ Hrun).
Defined.

End SchematicProofs.

Module ListingProofs.
Import Tool Listing.

Lemma intent_graph_entry_cases (config : json) (json_file : string) :
  match config with
  | JDict members =>
      match member "ring_config" members, member "instances" members with
      | Some (JDict ring_config), Some instances =>
          match size_of instances with
          | Some pads =>
              intent_graph_entry config json_file
              = Ok (Some {| e_file := json_file;
                            e_size := dimension ring_config "width" +:+ "x"
                                      +:+ dimension ring_config "height";
                            e_pads := pads |})
          | None => ∃ e, intent_graph_entry config json_file = Err e
          end
      | Some _, Some _ => ∃ e, intent_graph_entry config json_file = Err e
      | _, _ => intent_graph_entry config json_file = Ok None
      end
  | _ =>
      intent_graph_entry config json_file = Ok None
      ∨ ∃ e, intent_graph_entry config json_file = Err e
  end.
Proof.
  unfold intent_graph_entry.
  destruct config as [|b|z|text|s|l|members];
    try (right; by eexists).
  - cbn [py_in]. cbn [mbind result_bind].
    destruct (str_contains "ring_config" s); cbn [mbind result_bind].
    + destruct (str_contains "instances" s); [right; by eexists|by left].
    + by left.
  - cbn [py_in]. cbn [mbind result_bind].
    destruct (existsb _ l); cbn [mbind result_bind].
    + destruct (existsb _ l); [right; by eexists|by left].
    + by left.
  - cbn [py_in subscript]. cbn [mbind result_bind].
    destruct (member "ring_config" members) as [rc|] eqn:Hrc.
    2:{ rewrite bool_decide_eq_false_2 by (by intros [? ?]). done. }
    rewrite bool_decide_eq_true_2 by (by eexists). cbn [mbind result_bind].
    destruct (member "instances" members) as [instances|] eqn:Hi.
    2:{ rewrite bool_decide_eq_false_2 by (by intros [? ?]).
        by destruct rc. }
    rewrite bool_decide_eq_true_2 by (by eexists). cbn [mbind result_bind].
    destruct rc as [|b|z|text|s|l|ring_config]; try by eexists.
    cbn [get_or mbind result_bind]. unfold dimension.
    destruct instances as [|b|z|text|s|l|ms]; cbn [size_of py_len mbind result_bind];
      try (by eexists);
      by destruct (member "width" ring_config), (member "height" ring_config).
Qed.

Lemma collect_step_entry (fs : Files) (dir_path : string) (acc : list Entry)
    (json_file : string) :
  collect_step fs dir_path acc json_file
  = acc ++ option_list (entry_of fs dir_path json_file).
Proof.
  unfold collect_step, entry_of.
  destruct (load fs dir_path json_file) as [config|]; [|by rewrite app_nil_r].
  pose proof (intent_graph_entry_cases config json_file) as H.
  destruct config as [|b|z|text|s|l|members];
    try (destruct H as [->|[e ->]]; by rewrite app_nil_r).
  destruct (member "ring_config" members) as [rc|];
    [|rewrite H; by rewrite app_nil_r].
  destruct (member "instances" members) as [instances|].
  2:{ assert (intent_graph_entry (JDict members) json_file = Ok None) as ->
        by (by destruct rc).
      destruct rc; by rewrite app_nil_r. }
  destruct rc as [|b|z|text|s|l|ring_config];
    try (destruct H as [e ->]; by rewrite app_nil_r).
  destruct (size_of instances) as [pads|].
  - by rewrite H.
  - destruct H as [e ->]. by rewrite app_nil_r.
Qed.

Lemma collect_from (fs : Files) (dir_path : string) (json_files : list string)
    (acc : list Entry) :
  foldl (collect_step fs dir_path) acc json_files
  = acc ++ omap (entry_of fs dir_path) json_files.
Proof.
  revert acc. induction json_files as [|f files IH]; intros acc.
  - by rewrite app_nil_r.
  - cbn [foldl]. rewrite IH, collect_step_entry, <- app_assoc. f_equal.
    cbn [omap list_omap]. by destruct (entry_of fs dir_path f).
Qed.

Lemma entry_of_file (fs : Files) (dir_path json_file : string) (e : Entry) :
  entry_of fs dir_path json_file = Some e → e_file e = json_file.
Proof.
  unfold entry_of. intros H.
  destruct (load fs dir_path json_file) as [[| | | | | |members]|]; try done.
  destruct (member "ring_config" members) as [[| | | | | |rc]|]; try done.
  destruct (member "instances" members) as [instances|]; [|done].
  destruct (size_of instances); [|done]. simpl in H. by injection H as <-.
Qed.

(** X9. The loop of lines 236-250 keeps exactly the files that load as an
    object with a [ring_config] member that is an object and an [instances]
    member that has a length (a list, an object or a string), in the order
    of the directory listing, one entry each; every other file, whether it
    fails the test of line 241 or makes the loop body raise, is passed over
    without a trace. *)
Theorem listed_entries (fs : Files) (dir_path : string)
    (json_files : list string) :
  collect fs dir_path json_files = omap (entry_of fs dir_path) json_files
  ∧ e_file <$> collect fs dir_path json_files
    = filter (λ f, is_Some (entry_of fs dir_path f)) json_files.
Proof.
  assert (collect fs dir_path json_files
          = omap (entry_of fs dir_path) json_files) as Hc
    by apply (collect_from fs dir_path json_files []).
  split; [exact Hc|]. rewrite Hc. clear Hc.
  induction json_files as [|f files IH]; [done|].
  cbn [omap list_omap]. rewrite filter_cons.
  destruct (entry_of fs dir_path f) as [e|] eqn:He.
  - rewrite decide_True by (by eexists). cbn [fmap list_fmap].
    rewrite (entry_of_file _ _ _ _ He). f_equal. exact IH.
  - rewrite decide_False by (by intros [? ?]). exact IH.
Qed.

Lemma find_first {A} (f : A → bool) (l : list A) :
  match List.find f l with
  | None => Forall (λ x, f x = false) l
  | Some x =>
      ∃ before after,
        l = before ++ x :: after ∧ Forall (λ y, f y = false) before ∧ f x = true
  end.
Proof.
  induction l as [|a l IH]; [constructor|]. simpl.
  destruct (f a) eqn:Ha.
  - exists [], l. by repeat split.
  - destruct (List.find f l) as [x|].
    + destruct IH as (before & after & -> & Hb & Hx).
      exists (a :: before), after. repeat split; [|done]. by constructor.
    + by constructor.
Qed.

(** X10. The directory searched is the first that exists among the
    requested one, [output/generated], [src/schematic] and [output], in this
    order; there is none only if none of the four exists. *)
Theorem searched_directory (fs : Files) (directory : string) :
  match choose_directory fs directory with
  | None => Forall (λ p, path_exists fs p = false) (directory :: alt_paths)
  | Some dir_path =>
      ∃ before after,
        directory :: alt_paths = before ++ dir_path :: after
        ∧ Forall (λ p, path_exists fs p = false) before
        ∧ path_exists fs dir_path = true
  end.
Proof.
  assert (choose_directory fs directory
          = List.find (path_exists fs) (directory :: alt_paths)) as ->.
  { unfold choose_directory. cbn [List.find].
    by destruct (path_exists fs directory). }
  apply find_first.
Qed.

Lemma get_head_append (c : Ascii.ascii) (s t : string) :
  String.get 0 s = Some c → String.get 0 (s +:+ t) = Some c.
Proof. by destruct s. Qed.

Lemma listing_head (c : Ascii.ascii) (l : list Entry) (init : string) :
  String.get 0 init = Some c →
  String.get 0 (foldl (λ result e, result +:+ entry_line e) init l) = Some c.
Proof.
  revert init. induction l as [|e l IH]; intros init Hc; [done|].
  cbn [foldl]. by apply IH, get_head_append.
Qed.

(** X11. [list_intent_graphs] answers that the directory does not exist
    exactly when neither the requested directory nor any of the three
    alternatives exists; a missing directory alone is no error. *)
Theorem no_directory_error (fs : Files) (directory : string) :
  list_intent_graphs fs directory
  = "❌ Error: Directory " +:+ directory +:+ " does not exist. Tried: "
    +:+ directory +:+ ", output/generated, src/schematic, output"
  ↔ Forall (λ p, path_exists fs p = false) (directory :: alt_paths).
Proof.
  unfold list_intent_graphs. split.
  - intros Hmsg.
    assert (choose_directory fs directory
            = List.find (path_exists fs) (directory :: alt_paths)) as Hfind.
    { unfold choose_directory. cbn [List.find].
      by destruct (path_exists fs directory). }
    pose proof (find_first (path_exists fs) (directory :: alt_paths)) as Hf.
    rewrite <- Hfind in Hf.
    destruct (choose_directory fs directory) as [dir_path|]; [|done].
    exfalso. apply (f_equal (String.get 0)) in Hmsg.
    destruct (negb (nonempty (glob_json fs dir_path))); [done|].
    destruct (negb (nonempty (collect fs dir_path (glob_json fs dir_path))));
      [done|].
    rewrite (listing_head "F") in Hmsg; done.
  - intros Hall. unfold choose_directory.
    inversion Hall as [|p l Hd Hrest]; subst. rewrite Hd.
    unfold alt_paths in *.
    repeat (match goal with
            | H : Forall _ (_ :: _) |- _ => inversion H; subst; clear H
            end).
    cbn [List.find].
    repeat (match goal with
            | H : path_exists fs _ = false |- _ => rewrite H; clear H
            end).
    done.
Qed.

End ListingProofs.
